(** * MakeLazy: lazily evaluated, loop-fused element-wise operators

    A shallow embedding of [MakeLazy.h] (namespace [Lazy]) and of the two
    statements exercised by [Test.cpp].

    - Collections live in a store and are addressed by location: a
      [Lazy::Container] holds a [COLLECTION&], so a wrapper is a location,
      and copying a wrapper copies the location.
    - An expression tree is a binary tree whose leaves are operands held by
      reference and whose nodes carry their [BinaryOp] template argument.
    - Code that touches element data runs in a state-and-failure monad over
      the store, together with a log of element accesses. *)

From Stdlib Require Import ZArith String Ascii.
From stdpp Require Import base option list gmap.

(** ** Operation tags: the structs of [detail::BinaryOperations] *)

Module BinaryOperations.

(** Tags generated by the three-argument [CREATE_BINARY_OPERATION]. *)
Inductive Numeric := ADD | SUB | MUL | DIV | LOR | LAND | LXOR | SHL | SHR.

(** Tags generated by the two-argument [CREATE_BINARY_OPERATION]. *)
Inductive Relational := AND | OR | EQ | NEQ | LT | LE | GT | GE.

Inductive BinaryOp :=
| numeric (o : Numeric)
| relational (o : Relational).

#[export] Instance Numeric_eq_dec : EqDecision Numeric.
Proof. solve_decision. Defined.
#[export] Instance Relational_eq_dec : EqDecision Relational.
Proof. solve_decision. Defined.
#[export] Instance BinaryOp_eq_dec : EqDecision BinaryOp.
Proof. solve_decision. Defined.

End BinaryOperations.
Import BinaryOperations.

(** ** The element type

    What the header asks of [value_type]: the operators its tags spell out.
    [binary o a b] is the value of [a xi_operator b], [compound o a b] is the
    value [a] holds after [a xi_assign_operator b], [relation o a b] is the
    value of the relational or logical [a xi_operator b].  A result of [None]
    stands for an operator the type does not have, or an application the
    language leaves undefined.  [from_bool] is the implicit conversion used
    when the [bool] produced by a relational node is passed on as a
    [value_type]. *)
Record Element := {
  value_type :> Type;
  binary : Numeric → value_type → value_type → option value_type;
  compound : Numeric → value_type → value_type → option value_type;
  relation : Relational → value_type → value_type → option bool;
  from_bool : bool → option value_type
}.
Arguments binary {E} o a b : rename.
Arguments compound {E} o a b : rename.
Arguments relation {E} o a b : rename.
Arguments from_bool {E} b : rename.

(** A collection is addressed by its location in the store. *)
Definition loc := nat.

(** Accesses to element data, in program order. *)
Inductive event :=
| ElemRead (c : loc) (i : nat)     (* the element is read out *)
| ElemWrite (c : loc) (i : nat)    (* the element is assigned *)
| ElemUpdate (c : loc) (i : nat).  (* the element is compound-assigned in place *)

#[export] Instance event_eq_dec : EqDecision event.
Proof. solve_decision. Defined.

(** Why a piece of code has no result. *)
Inductive failure :=
| no_viable_operator      (* overload resolution finds no candidate *)
| ambiguous_operator      (* overload resolution finds several, equally good *)
| unbound_reference       (* a constructor leaves a reference member unbound *)
| not_an_expression       (* [is_binary_expression_v] rejects the argument *)
| no_such_collection
| out_of_range            (* index past [size()] *)
| undefined_operation     (* the element operator has no result *)
| not_convertible.        (* no conversion from [bool] to [value_type] *)

(** Value categories of the result of an [operator[]]. *)
Inductive category := lvalue | prvalue.

(** The operator tokens the header overloads. *)
Inductive Operator :=
| tok_plus | tok_minus | tok_star | tok_slash
| tok_pipe | tok_amp | tok_caret | tok_shl | tok_shr
| tok_amp_amp | tok_pipe_pipe
| tok_eq_eq | tok_not_eq | tok_less | tok_less_eq | tok_greater | tok_greater_eq
| tok_plus_eq | tok_minus_eq | tok_star_eq | tok_slash_eq
| tok_pipe_eq | tok_amp_eq | tok_caret_eq | tok_shl_eq | tok_shr_eq.

#[export] Instance Operator_eq_dec : EqDecision Operator.
Proof. solve_decision. Defined.

(** [struct Container]: its one data member, [COLLECTION& m_container]. *)
Record Container := { m_container : loc }.

(** [class BinaryExpression<LeftExpr, BinaryOp, RightExpr>].  Every operator
    of the header instantiates [LeftExpr] and [RightExpr] with reference
    types, so a node holds its operands by reference; an operand is a
    wrapper (a [const Container&] when [is_const], a [Container&]
    otherwise), a collection, or another node.  The getters [le()] and
    [re()] return [m_left] and [m_right]. *)
Inductive Expr :=
| Wrapped (is_const : bool) (w : Container)
| Collection (c : loc)
| BinaryExpression (m_left : Expr) (op : BinaryOp) (m_right : Expr).

(** The leaves of a tree, left to right. *)
Fixpoint leaves (e : Expr) : list loc :=
  match e with
  | Wrapped _ w => [m_container w]
  | Collection c => [c]
  | BinaryExpression l _ r => leaves l ++ leaves r
  end.

(** The element reads of one evaluation of [e] at index [i]: one per
    leaf, left to right. *)
Definition reads (e : Expr) (i : nat) : list event :=
  (λ c, ElemRead c i) <$> leaves e.

(** What one materialisation logs: at every index the reads of the tree,
    then the access to the destination. *)
Definition pass (e : Expr) (last : nat → event) (n : nat) : list event :=
  flat_map (λ i, reads e i ++ [last i]) (seq 0 n).

(** How often the log [t] reads element [i] of collection [c]. *)
Definition loads_of (c : loc) (i : nat) (t : list event) : nat :=
  length (filter (λ ev, ev = ElemRead c i) t).

Section Lazy.

Context {E : Element}.

(** *** The store and the monad *)

Record machine := Machine {
  collections : gmap loc (list E);
  trace : list event
}.

Inductive outcome (A : Type) :=
| Done (x : A) (m : machine)
| Failed (f : failure).
Arguments Done {A} x m.
Arguments Failed {A} f.

Definition M (A : Type) : Type := machine → outcome A.

#[export] Instance M_ret : MRet M := λ A x m, Done x m.
#[export] Instance M_bind : MBind M := λ A B f c m,
  match c m with
  | Done x m' => f x m'
  | Failed e => Failed e
  end.

Definition fail {A} (f : failure) : M A := λ _, Failed f.

Definition expect {A} (f : failure) (o : option A) : M A :=
  match o with
  | Some x => mret x
  | None => fail f
  end.

Definition log (t : list event) (m : machine) : machine :=
  {| collections := collections m; trace := trace m ++ t |}.

(** The element of collection [c] at index [i], if there is one. *)
Definition peek (m : machine) (c : loc) (i : nat) : option E :=
  collections m !! c ≫= (.!! i).

(** [c.size()] *)
Definition size (c : loc) : M nat := λ m,
  match collections m !! c with
  | Some l => Done (length l) m
  | None => Failed no_such_collection
  end.

Definition read_element (c : loc) (i : nat) : M E := λ m,
  match collections m !! c with
  | Some l =>
      match l !! i with
      | Some x => Done x (log [ElemRead c i] m)
      | None => Failed out_of_range
      end
  | None => Failed no_such_collection
  end.

(** Replace the element at [i] by [f] of it, logging [ev]. *)
Definition modify (ev : event) (c : loc) (i : nat) (f : E → option E) : M unit := λ m,
  match collections m !! c with
  | Some l =>
      match l !! i with
      | Some old =>
          match f old with
          | Some new =>
              Done tt {| collections := <[c := <[i := new]> l]> (collections m);
                         trace := trace m ++ [ev] |}
          | None => Failed undefined_operation
          end
      | None => Failed out_of_range
      end
  | None => Failed no_such_collection
  end.

Definition write_element (c : loc) (i : nat) (x : E) : M unit :=
  modify (ElemWrite c i) c i (λ _, Some x).

Definition update_element (c : loc) (i : nat) (f : E → option E) : M unit :=
  modify (ElemUpdate c i) c i f.

(** *** Indexing *)

(** What an [operator[]] hands back: a reference to an element of a
    collection, or a temporary holding a value. *)
Inductive access :=
| reference (c : loc) (i : nat)
| temporary (x : E).

Definition category_of (a : access) : category :=
  match a with
  | reference _ _ => lvalue
  | temporary _ => prvalue
  end.

Definition read (a : access) : M E :=
  match a with
  | reference c i => read_element c i
  | temporary x => mret x
  end.

(** [a = x]: assigning to a temporary changes the temporary only. *)
Definition assign (a : access) (x : E) : M unit :=
  match a with
  | reference c i => write_element c i x
  | temporary _ => mret tt
  end.

(** [a xi_assign_operator x] *)
Definition assign_compound (o : Numeric) (a : access) (x : E) : M unit :=
  match a with
  | reference c i => update_element c i (λ old, compound o old x)
  | temporary old => expect undefined_operation (compound o old x) ≫= λ _, mret tt
  end.

(** [COLLECTION::operator[]]: a reference to the element. *)
Definition collection_subscript (c : loc) (i : nat) : M access :=
  n ← size c;
  if decide (i < n) then mret (reference c i) else fail out_of_range.

(** [Container::operator[]], const ([is_const = true]) and non-const:
    [auto operator[] (size_type i) { return m_container[i]; }].  The
    deduced return type is not a reference, so the element is copied. *)
Definition Container_subscript (is_const : bool) (self : Container) (i : nat) : M access :=
  if is_const
  then (r ← collection_subscript (m_container self) i; x ← read r; mret (temporary x))
  else (r ← collection_subscript (m_container self) i; x ← read r; mret (temporary x)).

(** *** Applying a tag: the [apply] overloads

    An operand reaches [apply] as a value with its category: an lvalue binds
    to [const T&], a prvalue to [T&&].  Besides the value returned, the
    result records what each operand holds afterwards: [Some x] when it is
    left holding [x], [None] when it has been moved from. *)

Record applied (R : Type) := Applied {
  returned : R;
  left_after : option E;
  right_after : option E
}.
Arguments Applied {R} _ _ _.
Arguments returned {R} _.
Arguments left_after {R} _.
Arguments right_after {R} _.

(** [CREATE_BINARY_OPERATION(xi_name, xi_operator, xi_assign_operator)] *)
Definition apply_numeric (o : Numeric) (ca cb : category) (a b : E) : option (applied E) :=
  match ca, cb with
  | lvalue, lvalue =>                       (* return a xi_operator b; *)
      r ← binary o a b; Some (Applied r (Some a) (Some b))
  | prvalue, lvalue =>                      (* a xi_assign_operator b; return std::move(a); *)
      a' ← compound o a b; Some (Applied a' None (Some b))
  | lvalue, prvalue =>                      (* b xi_assign_operator a; return std::move(b); *)
      b' ← compound o b a; Some (Applied b' (Some a) None)
  | prvalue, prvalue =>                     (* a xi_assign_operator b; return std::move(a); *)
      a' ← compound o a b; Some (Applied a' None (Some b))
  end.

(** [CREATE_BINARY_OPERATION(xi_name, xi_operator)] *)
Definition apply_relational (o : Relational) (ca cb : category) (a b : E) : option (applied bool) :=
  match ca, cb with
  | lvalue, lvalue => r ← relation o a b; Some (Applied r (Some a) (Some b))
  | prvalue, lvalue => r ← relation o a b; Some (Applied r (Some a) (Some b))
  | lvalue, prvalue => r ← relation o a b; Some (Applied r (Some a) (Some b))
  | prvalue, prvalue => r ← relation o a b; Some (Applied r (Some a) (Some b))
  end.

(** The result of indexing an expression: a [value_type] or a [bool]. *)
Inductive value :=
| elem (x : E)
| boolean (b : bool).

(** An operand passed to [apply]: a [bool] is first converted to a
    [value_type] temporary. *)
Definition as_argument (x : category * value) : option (category * E) :=
  match x.2 with
  | elem a => Some (x.1, a)
  | boolean b => a ← from_bool b; Some (prvalue, a)
  end.

(** [BinaryOp::apply(l, r)] *)
Definition apply (op : BinaryOp) (l r : category * value) : M value :=
  a ← expect not_convertible (as_argument l);
  b ← expect not_convertible (as_argument r);
  match op with
  | numeric o =>
      x ← expect undefined_operation (apply_numeric o a.1 b.1 a.2 b.2); mret (elem (returned x))
  | relational o =>
      x ← expect undefined_operation (apply_relational o a.1 b.1 a.2 b.2); mret (boolean (returned x))
  end.

(** An operand of a node, indexed: the value read through what its
    [operator[]] returned, with its category. *)
Definition operand (subscripted : M access) : M (category * value) :=
  r ← subscripted;
  x ← read r;
  mret (category_of r, elem x).

(** [BinaryExpression::operator[]]:
    [return BinaryOp::apply(le()[index], re()[index]);]
    The two arguments are evaluated left first; the order is not fixed by
    the language and no result depends on it, since indexing writes
    nothing. *)
Fixpoint subscript (e : Expr) (index : nat) : M (category * value) :=
  match e with
  | Wrapped is_const w => operand (Container_subscript is_const w index)
  | Collection c => operand (collection_subscript c index)
  | BinaryExpression m_left op m_right =>
      l ← subscript m_left index;
      r ← subscript m_right index;
      v ← apply op l r;
      mret (prvalue, v)
  end.

(** *** Composition *)

(** The operator templates of [Container] that build a node, in the order
    of the header: the token each one overloads and the tag it
    instantiates. *)
Definition Container_operators : list (Operator * BinaryOp) :=
  [ (tok_plus, numeric ADD);
    (tok_minus, numeric SUB);
    (tok_star, numeric MUL);
    (tok_slash, numeric DIV);
    (tok_amp, numeric LAND);
    (tok_amp, numeric LOR);
    (tok_caret, numeric LXOR);
    (tok_shl, numeric SHL);
    (tok_shr, numeric SHR);
    (tok_eq_eq, relational EQ);
    (tok_not_eq, relational NEQ);
    (tok_less, relational LT);
    (tok_less_eq, relational LE);
    (tok_greater, relational GT);
    (tok_greater_eq, relational GE) ].

(** The tokens overloaded by [CREATE_BINARY_EXPRESSION_OPERATOR]. *)
Definition BinaryExpression_operators : list Operator :=
  [ tok_plus_eq; tok_minus_eq; tok_star_eq; tok_slash_eq; tok_pipe_eq;
    tok_amp_eq; tok_caret_eq; tok_shl_eq; tok_shr_eq;
    tok_plus; tok_minus; tok_star; tok_slash; tok_pipe; tok_amp; tok_caret;
    tok_shl; tok_shr; tok_amp_amp; tok_pipe_pipe;
    tok_eq_eq; tok_not_eq; tok_less; tok_less_eq; tok_greater; tok_greater_eq ].

(** The candidates for [xi_operator] among the templates of [Container].
    They all take one forwarding reference, so candidates for the same
    token are equally good. *)
Definition candidates (xi_operator : Operator) : list BinaryOp :=
  (filter (λ d, d.1 = xi_operator) Container_operators).*2.

Definition resolve (xi_operator : Operator) : M BinaryOp :=
  match candidates xi_operator with
  | [] => fail no_viable_operator
  | [tag] => mret tag
  | _ => fail ambiguous_operator
  end.

(** [Container::operator xi_operator (RightExpr&& xi_expression) const]:
    [BinaryExpression<const Container&, TAG<value_type>, RightExpr&&>
       ( *this, std::forward<RightExpr>(xi_expression))]
    in a [const] member function: the left operand is a
    [const Container&]. *)
Definition Container_operator (xi_operator : Operator) (self : Container) (xi_expression : Expr) : M Expr :=
  tag ← resolve xi_operator;
  mret (BinaryExpression (Wrapped true self) tag xi_expression).

(** [BinaryExpression::operator xi_operator (RE&& re) const]:
    [BinaryExpression<const BinaryExpression<LeftExpr, BinaryOp, RightExpr>&,
                      BinaryOp, RE&&>( *this, std::forward<RE>(re))]
    where [BinaryOp] is the template argument of the node itself. *)
Definition BinaryExpression_operator (xi_operator : Operator) (self : Expr) (re : Expr) : M Expr :=
  match self with
  | BinaryExpression _ BinaryOp _ =>
      if decide (xi_operator ∈ BinaryExpression_operators)
      then mret (BinaryExpression self BinaryOp re)
      else fail no_viable_operator
  | _ => fail not_an_expression
  end.

(** [lhs xi_operator rhs] as a composition, resolved on the class of
    [lhs] among the operators that build a node; a bare collection has
    none of them.  (The compound assignments of a wrapper do not compose:
    they materialise, see [Container_compound_assign].) *)
Definition compose (xi_operator : Operator) (lhs rhs : Expr) : M Expr :=
  match lhs with
  | Wrapped _ w => Container_operator xi_operator w rhs
  | BinaryExpression _ _ _ => BinaryExpression_operator xi_operator lhs rhs
  | Collection _ => fail no_viable_operator
  end.

(** [lhs op1 e1 op2 e2 ...] for operators of one precedence level, which
    associate to the left. *)
Fixpoint chain (lhs : Expr) (rest : list (Operator * Expr)) : M Expr :=
  match rest with
  | [] => mret lhs
  | (xi_operator, rhs) :: rest' => e ← compose xi_operator lhs rhs; chain e rest'
  end.

(** *** Materialisation *)

(** [for (std::size_t i{}; i < c.size(); ++i) body], from index [i] with
    [k] iterations to go.  No body below changes the size of a collection
    (see [modify_size]), so the bound is read once. *)
Fixpoint for_range (i k : nat) (body : nat → M unit) : M unit :=
  match k with
  | 0 => mret tt
  | S k' => body i ≫= λ _, for_range (S i) k' body
  end.

Definition for_each_index (c : loc) (body : nat → M unit) : M unit :=
  n ← size c; for_range 0 n body.

(** [std::enable_if<Concepts::is_binary_expression_v<T>>] *)
Definition is_binary_expression (e : Expr) : bool :=
  match e with
  | BinaryExpression _ _ _ => true
  | _ => false
  end.

(** The value of [xi_expression[i]] as a [value_type]. *)
Definition element_of (xi_expression : Expr) (i : nat) : M E :=
  v ← subscript xi_expression i;
  a ← expect not_convertible (as_argument v);
  mret a.2.

(** The loop shared by the constructor and the assignment:
    [m_container[i] = std::move(xi_expression[i]);] *)
Definition materialize (self : Container) (xi_expression : Expr) : M unit :=
  for_each_index (m_container self) (λ i,
    x ← element_of xi_expression i;
    r ← collection_subscript (m_container self) i;
    assign r x).

(** [Container& operator =(T&& xi_expression)] *)
Definition Container_assign (self : Container) (xi_expression : Expr) : M unit :=
  if is_binary_expression xi_expression
  then materialize self xi_expression
  else fail not_an_expression.

(** [Container& operator xi_assign_operator (T&& xi_expression)], the
    overload taking a binary expression:
    [m_container[i] xi_assign_operator std::move(xi_expression[i]);] *)
Definition Container_compound_assign (o : Numeric) (self : Container) (xi_expression : Expr) : M unit :=
  if is_binary_expression xi_expression
  then for_each_index (m_container self) (λ i,
         x ← element_of xi_expression i;
         r ← collection_subscript (m_container self) i;
         assign_compound o r x)
  else fail not_an_expression.

(** A constructor: the mem-initializer list binds the reference member
    (or does not), then the body runs on the object. *)
Definition construct (initializer : option loc) (body : Container → M unit) : M Container :=
  match initializer with
  | Some c => body {| m_container := c |} ≫= λ _, mret {| m_container := c |}
  | None => fail unbound_reference
  end.

(** [constexpr Container(COLLECTION& xi_col) : m_container(xi_col) {}] *)
Definition Container_from_collection (xi_col : loc) : M Container :=
  construct (Some xi_col) (λ _, mret tt).

(** [Container(T&& xi_expression) noexcept { for ... }]: no mem-initializer
    list. *)
Definition Container_from_expression (xi_expression : Expr) : M Container :=
  if is_binary_expression xi_expression
  then construct None (λ self, materialize self xi_expression)
  else fail not_an_expression.


(** *** The statements of [Test.cpp]

    The wrappers are declared non-const, so as right-hand operands they
    are [Container&]. *)

(** [lazy_d += lazy_a + lazy_b + lazy_c;] *)
Definition lazy_add_assign (lazy_d lazy_a lazy_b lazy_c : Container) : M unit :=
  ab ← Container_operator tok_plus lazy_a (Wrapped false lazy_b);
  abc ← BinaryExpression_operator tok_plus ab (Wrapped false lazy_c);
  Container_compound_assign ADD lazy_d abc.

(** [for (std::size_t i{}; i < n; ++i) { d[i] += a[i] + b[i] + c[i]; }] on
    the collections themselves: [a[i] + b[i]] adds two lvalues, the sum
    and [c[i]] are added next, and [d[i]] is compound-assigned in place. *)
Definition scalar_add_assign (n : nat) (d a b c : loc) : M unit :=
  for_range 0 n (λ i,
    x ← read_element a i;
    y ← read_element b i;
    xy ← expect undefined_operation (binary ADD x y);
    z ← read_element c i;
    xyz ← expect undefined_operation (binary ADD xy z);
    update_element d i (λ old, compound ADD old xyz)).

(** The other statements the claims speak of, written the same way. *)

(** [lazy_d = lazy_a + lazy_b + lazy_c;] *)
Definition lazy_assign (lazy_d lazy_a lazy_b lazy_c : Container) : M unit :=
  ab ← Container_operator tok_plus lazy_a (Wrapped false lazy_b);
  abc ← BinaryExpression_operator tok_plus ab (Wrapped false lazy_c);
  Container_assign lazy_d abc.

(** [lazy_d += lazy_a + lazy_b;] *)
Definition lazy_add_assign2 (lazy_d lazy_a lazy_b : Container) : M unit :=
  ab ← Container_operator tok_plus lazy_a (Wrapped false lazy_b);
  Container_compound_assign ADD lazy_d ab.

(** Following the spec's words, the naive elementwise loop
    [for every index i, D[i] = A[i] + B[i] + C[i]] over the collections
    themselves. *)
Definition naive_assign (n : nat) (d a b c : loc) : M unit :=
  for_range 0 n (λ i,
    x ← read_element a i;
    y ← read_element b i;
    xy ← expect undefined_operation (binary ADD x y);
    z ← read_element c i;
    xyz ← expect undefined_operation (binary ADD xy z);
    write_element d i xyz).

End Lazy.

Arguments Done {E A} x m.
Arguments Failed {E A} f.
Arguments Applied {E R} _ _ _.
Arguments returned {E R} _.
Arguments left_after {E R} _.
Arguments right_after {E R} _.

(** ** Two element types *)

(** [int], as [std::int32_t]: integers in two's complement on 32 bits.  For
    a built-in type [a op= b] is [a = a op b].  Division by zero and a shift
    count outside [0, 32) have no result. *)
Module Int32.

Definition wrap (z : Z) : Z := ((z + 2 ^ 31) mod 2 ^ 32 - 2 ^ 31)%Z.

Definition truth (z : Z) : bool := negb (z =? 0)%Z.

Definition shift_count (n : Z) : bool := ((0 <=? n) && (n <? 32))%Z.

Definition int_binary (o : Numeric) (a b : Z) : option Z :=
  match o with
  | ADD => Some (wrap (a + b))
  | SUB => Some (wrap (a - b))
  | MUL => Some (wrap (a * b))
  | DIV => if (b =? 0)%Z then None else Some (wrap (Z.quot a b))
  | LOR => Some (Z.lor a b)
  | LAND => Some (Z.land a b)
  | LXOR => Some (Z.lxor a b)
  | SHL => if shift_count b then Some (wrap (Z.shiftl a b)) else None
  | SHR => if shift_count b then Some (Z.shiftr a b) else None
  end.

Definition int_relation (o : Relational) (a b : Z) : option bool :=
  Some match o with
       | AND => truth a && truth b
       | OR => truth a || truth b
       | EQ => (a =? b)%Z
       | NEQ => negb (a =? b)%Z
       | LT => (a <? b)%Z
       | LE => (a <=? b)%Z
       | GT => (b <? a)%Z
       | GE => (b <=? a)%Z
       end.

Definition int_from_bool (b : bool) : option Z := Some (if b then 1%Z else 0%Z).

Definition int : Element :=
  {| value_type := Z; binary := int_binary; compound := int_binary;
     relation := int_relation; from_bool := int_from_bool |}.

End Int32.

(** [std::string]: of the operators above it has [+], [+=] and the six
    comparisons; there is no conversion from [bool]. *)
Module StdString.

Definition string_binary (o : Numeric) (a b : string) : option string :=
  match o with
  | ADD => Some (String.append a b)
  | _ => None
  end.

Definition string_relation (o : Relational) (a b : string) : option bool :=
  match o with
  | AND | OR => None
  | EQ => Some (String.eqb a b)
  | NEQ => Some (negb (String.eqb a b))
  | LT => Some (String.ltb a b)
  | LE => Some (String.leb a b)
  | GT => Some (String.ltb b a)
  | GE => Some (String.leb b a)
  end.

Definition text : Element :=
  {| value_type := string; binary := string_binary; compound := string_binary;
     relation := string_relation; from_bool := λ _, None |}.

End StdString.

(** The element type supports [xi_operator] and [xi_assign_operator]: both
    are defined on all values, and [a xi_assign_operator b] leaves the
    value of [a xi_operator b] in [a]. *)
Definition supports (E : Element) (o : Numeric) : Prop :=
  ∀ a b : E, is_Some (binary o a b) ∧ compound o a b = binary o a b.

(** [(a op b) op c] and [a op (b op c)] have the same value. *)
Definition associative (E : Element) (o : Numeric) : Prop :=
  ∀ a b c : E,
    (binary o a b ≫= λ ab, binary o ab c) = (binary o b c ≫= λ bc, binary o a bc).

(** [r] is [A[i] + B[i]], and [r] is [A[i] + B[i] + C[i]], with the
    operator [+] of the element type. *)
Definition sum2_at {E : Element} (A B : list E) (i : nat) (r : E) : Prop :=
  ∃ x y, A !! i = Some x ∧ B !! i = Some y ∧ binary ADD x y = Some r.

Definition sum3_at {E : Element} (A B C : list E) (i : nat) (r : E) : Prop :=
  ∃ xy z, sum2_at A B i xy ∧ C !! i = Some z ∧ binary ADD xy z = Some r.

(** [r] is [D[i] + s] for an [s] with [S i s]. *)
Definition added_at {E : Element} (D : list E) (S : nat → E → Prop) (i : nat) (r : E) : Prop :=
  ∃ old s, D !! i = Some old ∧ S i s ∧ binary ADD old s = Some r.

(** A store holding the given collections at locations [0], [1], ... and
    an empty log. *)
Definition initial (E : Element) (cs : list (list E)) : machine (E:=E) :=
  {| collections := list_to_map (zip (seq 0 (length cs)) cs); trace := [] |}.

(** The collections of a run that ended, by location. *)
Definition contents {E : Element} {A} (r : outcome A) (c : loc) : option (list E) :=
  match r with
  | Done _ m => collections m !! c
  | Failed _ => None
  end.



(** [r] is a leaf operand over collection [c]: a wrapper of [c] or [c]
    itself. *)
Definition leaf_at (r : Expr) (c : loc) : Prop :=
  match r with
  | Wrapped _ w => m_container w = c
  | Collection c' => c' = c
  | BinaryExpression _ _ _ => False
  end.

(** The outcome of indexing a node whose [apply] has the result [v]. *)
Definition evaluated {E : Element} (v : option (@value E)) (m : @machine E)
    : @outcome E (category * @value E) :=
  match v with
  | Some z => Done (prvalue, z) m
  | None => Failed undefined_operation
  end.

(** * Properties *)

Section Evaluation.

Context {E : Element}.
Implicit Types (m : machine (E:=E)) (e : Expr) (c d : loc) (i : nat).

Lemma log_log t1 t2 m : log t2 (log t1 m) = log (t1 ++ t2) m.
Proof. unfold log; simpl. by rewrite app_assoc. Qed.

Lemma log_nil m : log [] m = m.
Proof. destruct m; unfold log; simpl. by rewrite app_nil_r. Qed.

Lemma peek_log t m c i : peek (log t m) c i = peek m c i.
Proof. reflexivity. Qed.

Lemma peek_Some m c i x :
  peek m c i = Some x ↔ ∃ l, collections m !! c = Some l ∧ l !! i = Some x.
Proof.
  unfold peek. destruct (collections m !! c) as [l|]; simpl.
  - split; [eauto | by intros (? & [= <-] & ?)].
  - split; [done | by intros (? & ? & ?)].
Qed.

(** Running a bind. *)
Lemma bind_Done {A B} (c : M A) (f : A → M B) m x m' :
  c m = Done x m' → (c ≫= f) m = f x m'.
Proof. unfold mbind, M_bind. by intros ->. Qed.

Lemma bind_inv {A B} (c : M A) (f : A → M B) m y m'' :
  (c ≫= f) m = Done y m'' → ∃ x m', c m = Done x m' ∧ f x m' = Done y m''.
Proof. unfold mbind, M_bind. destruct (c m); [eauto | done]. Qed.

Lemma expect_inv {A} (o : option A) f m x m' :
  expect f o m = Done x m' → o = Some x ∧ m' = m.
Proof. destruct o; simpl; [by intros [= -> ->] | done]. Qed.

Lemma size_Done m c l : collections m !! c = Some l → size c m = Done (length l) m.
Proof. unfold size. by intros ->. Qed.

Lemma collection_subscript_Done m c i l :
  collections m !! c = Some l → i < length l →
  collection_subscript c i m = Done (reference c i) m.
Proof.
  intros Hc Hi. unfold collection_subscript.
  rewrite (bind_Done _ _ _ _ _ (size_Done _ _ _ Hc)).
  by rewrite decide_True.
Qed.

Lemma collection_subscript_inv m c i r m' :
  collection_subscript c i m = Done r m' →
  r = reference c i ∧ m' = m ∧ ∃ l, collections m !! c = Some l ∧ i < length l.
Proof.
  unfold collection_subscript. intros (n & m1 & Hs & H)%bind_inv.
  unfold size in Hs. destruct (collections m !! c) as [l|] eqn:Hc; [|done].
  injection Hs as <- <-. case_decide; [|done].
  injection H as <- <-. eauto.
Qed.

Lemma read_element_Done m c i x :
  peek m c i = Some x → read_element c i m = Done x (log [ElemRead c i] m).
Proof. intros (l & Hc & Hi)%peek_Some. unfold read_element. by rewrite Hc, Hi. Qed.

Lemma read_element_inv m c i x m' :
  read_element c i m = Done x m' → peek m c i = Some x ∧ m' = log [ElemRead c i] m.
Proof.
  unfold read_element, peek. destruct (collections m !! c) as [l|]; [|done]; simpl.
  destruct (l !! i); [|done]. by intros [= -> <-].
Qed.

(** Indexing an operand reads its element once and leaves the store as
    it is; a wrapper gives a temporary, a collection a reference. *)
Lemma wrapped_operand_Done is_const (w : Container) m i x :
  peek m (m_container w) i = Some x →
  operand (Container_subscript is_const w i) m
  = Done (prvalue, elem x) (log [ElemRead (m_container w) i] m).
Proof.
  intros Hx. pose proof Hx as (l & Hc & Hi)%peek_Some.
  pose proof (lookup_lt_Some _ _ _ Hi) as Hlt.
  unfold operand, Container_subscript. destruct is_const.
  - erewrite bind_Done; [|erewrite bind_Done;
      [|by eapply collection_subscript_Done]; simpl;
      erewrite bind_Done; [|by apply read_element_Done]; reflexivity].
    reflexivity.
  - erewrite bind_Done; [|erewrite bind_Done;
      [|by eapply collection_subscript_Done]; simpl;
      erewrite bind_Done; [|by apply read_element_Done]; reflexivity].
    reflexivity.
Qed.

Lemma collection_operand_Done m c i x :
  peek m c i = Some x →
  operand (collection_subscript c i) m
  = Done (lvalue, elem x) (log [ElemRead c i] m).
Proof.
  intros Hx. pose proof Hx as (l & Hc & Hi)%peek_Some.
  pose proof (lookup_lt_Some _ _ _ Hi) as Hlt. unfold operand.
  erewrite bind_Done; [|by eapply collection_subscript_Done]. simpl.
  erewrite bind_Done; [|by apply read_element_Done]. reflexivity.
Qed.

Lemma wrapped_operand_inv is_const (w : Container) m i r m' :
  operand (Container_subscript is_const w i) m = Done r m' →
  ∃ x, peek m (m_container w) i = Some x ∧ r = (prvalue, elem x)
       ∧ m' = log [ElemRead (m_container w) i] m.
Proof.
  unfold operand. intros (a & m1 & Ha & H)%bind_inv.
  apply bind_inv in H as (x & m2 & Hx & H). injection H as <- <-.
  assert (∃ y, peek m (m_container w) i = Some y ∧ a = temporary y
               ∧ m1 = log [ElemRead (m_container w) i] m) as (y & Hy & -> & ->).
  { unfold Container_subscript in Ha. destruct is_const.
    - apply bind_inv in Ha as (a0 & m3 & Ha0 & Ha).
      apply collection_subscript_inv in Ha0 as (-> & -> & _).
      apply bind_inv in Ha as (y & m4 & Hy & Ha). injection Ha as <- <-.
      apply read_element_inv in Hy as [? ->]. eauto.
    - apply bind_inv in Ha as (a0 & m3 & Ha0 & Ha).
      apply collection_subscript_inv in Ha0 as (-> & -> & _).
      apply bind_inv in Ha as (y & m4 & Hy & Ha). injection Ha as <- <-.
      apply read_element_inv in Hy as [? ->]. eauto. }
  simpl in Hx. injection Hx as <- <-. eauto.
Qed.

Lemma collection_operand_inv m c i r m' :
  operand (collection_subscript c i) m = Done r m' →
  ∃ x, peek m c i = Some x ∧ r = (lvalue, elem x) ∧ m' = log [ElemRead c i] m.
Proof.
  unfold operand. intros (a & m1 & Ha & H)%bind_inv.
  apply bind_inv in H as (x & m2 & Hx & H). injection H as <- <-.
  apply collection_subscript_inv in Ha as (-> & -> & _).
  apply read_element_inv in Hx as [? ->]. eauto.
Qed.

(** [apply] computes on values only. *)
Lemma apply_pure op l r m v m' :
  apply op l r m = Done v m' → m' = m ∧ ∀ m2, apply op l r m2 = Done v m2.
Proof.
  unfold apply. intros (a & m1 & [Ha ->]%expect_inv & H)%bind_inv.
  apply bind_inv in H as (b & m1 & [Hb ->]%expect_inv & H).
  rewrite Ha, Hb. simpl. destruct op.
  - apply bind_inv in H as (x & m1 & [Hx ->]%expect_inv & H).
    injection H as <- <-. split; [done|]. intros m2.
    unfold mbind, M_bind; simpl. by rewrite Hx.
  - apply bind_inv in H as (x & m1 & [Hx ->]%expect_inv & H).
    injection H as <- <-. split; [done|]. intros m2.
    unfold mbind, M_bind; simpl. by rewrite Hx.
Qed.

(** Indexing an expression writes nothing, reads each leaf once at the
    index asked for, and depends on the store only through the elements
    at that index. *)
Lemma subscript_Done e i m r m' :
  subscript e i m = Done r m' →
  m' = log (reads e i) m ∧
  ∀ m2, (∀ c, peek m2 c i = peek m c i) →
        subscript e i m2 = Done r (log (reads e i) m2).
Proof.
  revert m r m'. induction e as [is_const w|c|l IHl op r IHr]; intros m res m' H.
  - simpl in H. apply wrapped_operand_inv in H as (x & Hx & -> & ->).
    split; [done|]. intros m2 Hm2. simpl.
    apply wrapped_operand_Done. by rewrite Hm2.
  - simpl in H. apply collection_operand_inv in H as (x & Hx & -> & ->).
    split; [done|]. intros m2 Hm2. simpl.
    apply collection_operand_Done. by rewrite Hm2.
  - simpl in H. apply bind_inv in H as (a & m1 & Ha & H).
    apply bind_inv in H as (b & m2 & Hb & H).
    apply bind_inv in H as (v & m3 & Hv & H). injection H as <- <-.
    apply IHl in Ha as [-> Hl]. apply IHr in Hb as [-> Hr].
    apply apply_pure in Hv as [-> Hv].
    unfold reads; simpl. rewrite fmap_app, <- log_log. split; [done|].
    intros m4 Hm4. simpl.
    erewrite bind_Done; [|by apply Hl].
    erewrite bind_Done; [|by apply Hr; intros c; rewrite !peek_log].
    erewrite bind_Done; [|by apply Hv]. by rewrite log_log.
Qed.

Lemma element_of_Done e i m x m' :
  element_of e i m = Done x m' →
  m' = log (reads e i) m ∧
  ∀ m2, (∀ c, peek m2 c i = peek m c i) →
        element_of e i m2 = Done x (log (reads e i) m2).
Proof.
  unfold element_of. intros (v & m1 & Hv & H)%bind_inv.
  apply bind_inv in H as (a & m2 & [Ha ->]%expect_inv & H). injection H as <- <-.
  apply subscript_Done in Hv as [-> Hv]. split; [done|].
  intros m2 Hm2. erewrite bind_Done; [|by apply Hv].
  by rewrite Ha.
Qed.

End Evaluation.

Section Materialisation.

Context {E : Element}.
Implicit Types (m : machine (E:=E)) (e : Expr) (c d : loc) (i : nat).

Lemma modify_Done ev m c i f l old new :
  collections m !! c = Some l → l !! i = Some old → f old = Some new →
  modify ev c i f m
  = Done tt {| collections := <[c := <[i := new]> l]> (collections m);
               trace := trace m ++ [ev] |}.
Proof. intros Hc Hi Hf. unfold modify. by rewrite Hc, Hi, Hf. Qed.

Lemma modify_inv ev m c i f m' :
  modify ev c i f m = Done tt m' →
  ∃ l old new, collections m !! c = Some l ∧ l !! i = Some old ∧ f old = Some new ∧
    m' = {| collections := <[c := <[i := new]> l]> (collections m);
            trace := trace m ++ [ev] |}.
Proof.
  unfold modify. destruct (collections m !! c) as [l|] eqn:Hc; [|done].
  destruct (l !! i) as [old|] eqn:Hi; [|done].
  destruct (f old) as [new|] eqn:Hf; [|done].
  intros [= <-]. by exists l, old, new.
Qed.

(** No loop body changes the size of a collection. *)
Lemma modify_size ev m c i f m' c' :
  modify ev c i f m = Done tt m' →
  length <$> collections m' !! c' = length <$> collections m !! c'.
Proof.
  intros (l & old & new & Hc & _ & _ & ->)%modify_inv. simpl.
  destruct (decide (c = c')) as [<-|]; [|by rewrite lookup_insert_ne].
  rewrite lookup_insert_eq, Hc. simpl. by rewrite length_insert.
Qed.

(** The list lemma behind the loop invariant: the first [i] elements are
    final, the others still the old ones. *)
Lemma insert_take_drop_S {A} (R D0 : list A) i x :
  R !! i = Some x → i < length D0 →
  <[i := x]> (take i R ++ drop i D0) = take (S i) R ++ drop (S i) D0.
Proof.
  intros HR HD. pose proof (lookup_lt_Some _ _ _ HR) as Hlt.
  destruct (lookup_lt_is_Some_2 D0 i HD) as [y Hy].
  rewrite insert_app_r_alt by (rewrite length_take_le; lia).
  rewrite length_take_le by lia. replace (i - i) with 0 by lia.
  rewrite (drop_S _ _ _ Hy). simpl.
  rewrite (take_S_r _ _ _ HR), <- app_assoc. reflexivity.
Qed.

Lemma lookup_take_drop {A} (R D0 : list A) i :
  i ≤ length R → (take i R ++ drop i D0) !! i = D0 !! i.
Proof.
  intros Hi. rewrite lookup_app_r by (rewrite length_take_le; lia).
  rewrite length_take_le by lia. rewrite lookup_drop. f_equal; lia.
Qed.

(** One fused pass.  If, at every index [i], the body run in a store that
    agrees with the initial one at index [i] writes [R !! i] to element
    [i] of [d] and logs [t i], then the loop over [d] turns [d] into [R]
    and logs [t 0], [t 1], ... in this order. *)
Lemma for_range_fused (body : nat → M unit) d (t : nat → list event) m0 D0 R :
  collections m0 !! d = Some D0 → length R = length D0 →
  (∀ i x m L, R !! i = Some x → (∀ c, peek m c i = peek m0 c i) →
     collections m !! d = Some L → length L = length D0 →
     body i m = Done tt {| collections := <[d := <[i := x]> L]> (collections m);
                           trace := trace m ++ t i |}) →
  for_range 0 (length D0) body m0
  = Done tt {| collections := <[d := R]> (collections m0);
               trace := trace m0 ++ flat_map t (seq 0 (length D0)) |}.
Proof.
  intros Hd HR Hbody.
  assert (∀ k i m, i + k = length D0 →
            collections m = <[d := take i R ++ drop i D0]> (collections m0) →
            for_range i k body m
            = Done tt {| collections := <[d := R]> (collections m0);
                         trace := trace m ++ flat_map t (seq i k) |}) as Hloop.
  { induction k as [|k IH]; intros i m Hik Hm.
    - simpl. rewrite app_nil_r. unfold mret, M_ret. destruct m as [h tr]; simpl in *.
      rewrite Hm, take_ge, drop_ge, app_nil_r by lia. reflexivity.
    - assert (is_Some (R !! i)) as [x Hx] by (apply lookup_lt_is_Some_2; lia).
      simpl. erewrite bind_Done; cycle 1.
      { apply (Hbody i x m (take i R ++ drop i D0) Hx).
        - intros c. unfold peek. rewrite Hm.
          destruct (decide (c = d)) as [->|].
          + rewrite lookup_insert_eq, Hd. simpl. apply lookup_take_drop; lia.
          + by rewrite lookup_insert_ne.
        - rewrite Hm. apply lookup_insert_eq.
        - rewrite length_app, length_take_le, length_drop by lia. lia. }
      rewrite IH; simpl; [by rewrite <- app_assoc | lia |].
      rewrite Hm, insert_insert_eq. f_equal. apply insert_take_drop_S; [done | lia]. }
  rewrite (Hloop (length D0) 0 m0); [done | done |].
  simpl. rewrite drop_0. symmetry. by apply insert_id.
Qed.

(** Assignment from an expression, given the value of the expression at
    every index in the initial store. *)
Lemma materialize_Done (self : Container) e m0 D0 R :
  collections m0 !! m_container self = Some D0 → length R = length D0 →
  (∀ i x, R !! i = Some x → ∃ m', element_of e i m0 = Done x m') →
  materialize self e m0
  = Done tt {| collections := <[m_container self := R]> (collections m0);
               trace := trace m0 ++ pass e (ElemWrite (m_container self)) (length D0) |}.
Proof.
  intros Hd HR He. unfold materialize, for_each_index.
  rewrite (bind_Done _ _ _ _ _ (size_Done _ _ _ Hd)).
  apply for_range_fused; [done..|].
  intros i x m L Hx Hagree HL Hlen.
  destruct (He i x Hx) as [m' Hval].
  apply element_of_Done in Hval as [_ Hval].
  pose proof (lookup_lt_Some _ _ _ Hx) as Hi.
  destruct (lookup_lt_is_Some_2 L i) as [old Hold]; [lia|].
  erewrite bind_Done; [|by apply Hval].
  erewrite bind_Done; [|by apply (collection_subscript_Done _ _ _ L); [|lia]].
  simpl. unfold write_element.
  erewrite modify_Done; [|done..]. simpl. by rewrite <- app_assoc.
Qed.

(** Compound assignment from an expression. *)
Lemma compound_assign_Done o (self : Container) e m0 D0 R :
  is_binary_expression e = true →
  collections m0 !! m_container self = Some D0 → length R = length D0 →
  (∀ i x, R !! i = Some x →
     ∃ old v m', D0 !! i = Some old ∧ element_of e i m0 = Done v m'
                 ∧ compound o old v = Some x) →
  Container_compound_assign o self e m0
  = Done tt {| collections := <[m_container self := R]> (collections m0);
               trace := trace m0 ++ pass e (ElemUpdate (m_container self)) (length D0) |}.
Proof.
  intros Hbin Hd HR He. unfold Container_compound_assign, for_each_index.
  rewrite Hbin, (bind_Done _ _ _ _ _ (size_Done _ _ _ Hd)).
  apply for_range_fused; [done..|].
  intros i x m L Hx Hagree HL Hlen.
  destruct (He i x Hx) as (old & v & m' & Hold & Hval & Hnew).
  apply element_of_Done in Hval as [_ Hval].
  pose proof (lookup_lt_Some _ _ _ Hx) as Hi.
  assert (L !! i = Some old) as HLi.
  { specialize (Hagree (m_container self)). unfold peek in Hagree.
    rewrite HL, Hd in Hagree. simpl in Hagree. congruence. }
  erewrite bind_Done; [|by apply Hval].
  erewrite bind_Done; [|by apply (collection_subscript_Done _ _ _ L); [|lia]].
  simpl. unfold update_element.
  erewrite modify_Done; [|done..]. simpl. by rewrite <- app_assoc.
Qed.

(** The log of a loop that ends is the logs of its iterations. *)
Lemma for_range_trace (body : nat → M unit) (t : nat → list event) :
  (∀ i m m', body i m = Done tt m' → trace m' = trace m ++ t i) →
  ∀ k i m m', for_range i k body m = Done tt m' →
              trace m' = trace m ++ flat_map t (seq i k).
Proof.
  intros Hbody. induction k as [|k IH]; intros i m m' H; simpl in *.
  - injection H as <-. by rewrite app_nil_r.
  - apply bind_inv in H as ([] & m1 & H1 & H).
    rewrite (IH _ _ _ H), (Hbody _ _ _ H1). by rewrite <- app_assoc.
Qed.

Lemma materialize_trace (self : Container) e m m' :
  materialize self e m = Done tt m' →
  ∃ D0, collections m !! m_container self = Some D0 ∧
        trace m' = trace m ++ pass e (ElemWrite (m_container self)) (length D0).
Proof.
  unfold materialize, for_each_index. intros (n & m1 & Hn & H)%bind_inv.
  unfold size in Hn. destruct (collections m !! m_container self) as [D0|]; [|done].
  injection Hn as <- <-. exists D0. split; [done|].
  revert H. apply for_range_trace. clear. intros i m m' H.
  apply bind_inv in H as (x & m1 & [-> _]%element_of_Done & H).
  apply bind_inv in H as (r & m2 & (-> & -> & _)%collection_subscript_inv & H).
  apply modify_inv in H as (? & ? & ? & _ & _ & _ & ->). simpl.
  by rewrite <- app_assoc.
Qed.

Lemma compound_assign_trace o (self : Container) e m m' :
  Container_compound_assign o self e m = Done tt m' →
  ∃ D0, collections m !! m_container self = Some D0 ∧
        trace m' = trace m ++ pass e (ElemUpdate (m_container self)) (length D0).
Proof.
  unfold Container_compound_assign, for_each_index.
  destruct (is_binary_expression e); [|done].
  intros (n & m1 & Hn & H)%bind_inv.
  unfold size in Hn. destruct (collections m !! m_container self) as [D0|]; [|done].
  injection Hn as <- <-. exists D0. split; [done|].
  revert H. apply for_range_trace. clear. intros i m m' H.
  apply bind_inv in H as (x & m1 & [-> _]%element_of_Done & H).
  apply bind_inv in H as (r & m2 & (-> & -> & _)%collection_subscript_inv & H).
  apply modify_inv in H as (? & ? & ? & _ & _ & _ & ->). simpl.
  by rewrite <- app_assoc.
Qed.

End Materialisation.

Section Sums.

Context {E : Element}.
Implicit Types (m : machine (E:=E)) (e : Expr) (c d : loc) (i : nat).

Lemma list_choice {A} (P : nat → A → Prop) n :
  (∀ i, i < n → ∃ x, P i x) →
  ∃ R, length R = n ∧ ∀ i x, R !! i = Some x → P i x.
Proof.
  induction n as [|n IH]; intros H.
  - exists []. split; [done|]. intros i x Hx. by rewrite lookup_nil in Hx.
  - destruct IH as (R & HR & HP); [intros; apply H; lia|].
    destruct (H n) as [x Hx]; [lia|].
    exists (R ++ [x]). split; [rewrite length_app; simpl; lia|].
    intros i y Hy. apply lookup_app_Some in Hy as [Hy | [Hge Hy]]; [eauto|].
    rewrite HR in *. destruct (i - n) as [|k] eqn:Hk; simpl in Hy.
    + injection Hy as <-. replace i with n by lia. exact Hx.
    + by rewrite lookup_nil in Hy.
Qed.

Lemma Container_plus (self : Container) rhs m :
  Container_operator tok_plus self rhs m
  = Done (BinaryExpression (Wrapped true self) (numeric ADD) rhs) m.
Proof. reflexivity. Qed.

Lemma BinaryExpression_plus l op r rhs m :
  BinaryExpression_operator tok_plus (BinaryExpression l op r) rhs m
  = Done (BinaryExpression (BinaryExpression l op r) op rhs) m.
Proof. reflexivity. Qed.

(** Adding a wrapper on the right of a temporary: the overload taking two
    rvalues, [a += b; return std::move(a);]. *)
Lemma subscript_add_wrapped l is_const (w : Container) i m m1 x y r :
  subscript l i m = Done (prvalue, elem x) m1 →
  peek m (m_container w) i = Some y →
  compound ADD x y = Some r →
  subscript (BinaryExpression l (numeric ADD) (Wrapped is_const w)) i m
  = Done (prvalue, elem r) (log [ElemRead (m_container w) i] m1).
Proof.
  intros Hl Hy Hr. simpl.
  erewrite bind_Done; [|exact Hl].
  apply subscript_Done in Hl as [-> _].
  erewrite bind_Done; [|by apply wrapped_operand_Done; rewrite peek_log].
  unfold apply; simpl. unfold mbind at 1, M_bind at 1; simpl.
  unfold mbind at 1, M_bind at 1; simpl. unfold mbind at 1, M_bind at 1; simpl.
  by rewrite Hr.
Qed.

Lemma element_of_elem e i m cat x m' :
  subscript e i m = Done (cat, elem x) m' → element_of e i m = Done x m'.
Proof. intros H. unfold element_of. erewrite bind_Done; [|exact H]. reflexivity. Qed.

Lemma peek_lookup m c i l x :
  collections m !! c = Some l → l !! i = Some x → peek m c i = Some x.
Proof. intros. apply peek_Some. eauto. Qed.

Lemma element_of_sum2 (a b : Container) A B i m r :
  supports E ADD →
  collections m !! m_container a = Some A →
  collections m !! m_container b = Some B →
  sum2_at A B i r →
  ∃ m', element_of (BinaryExpression (Wrapped true a) (numeric ADD)
                      (Wrapped false b)) i m
        = Done r m'.
Proof.
  intros Hplus Ha Hb (x & y & Hx & Hy & Hr).
  eexists. eapply element_of_elem, subscript_add_wrapped.
  - apply (wrapped_operand_Done true). by eapply peek_lookup.
  - by eapply peek_lookup.
  - by rewrite (proj2 (Hplus x y)).
Qed.

Lemma element_of_sum3 (a b c : Container) A B C i m r :
  supports E ADD →
  collections m !! m_container a = Some A →
  collections m !! m_container b = Some B →
  collections m !! m_container c = Some C →
  sum3_at A B C i r →
  ∃ m', element_of (BinaryExpression
                      (BinaryExpression (Wrapped true a) (numeric ADD)
                         (Wrapped false b))
                      (numeric ADD) (Wrapped false c)) i m
        = Done r m'.
Proof.
  intros Hplus Ha Hb Hc (xy & z & (x & y & Hx & Hy & Hxy) & Hz & Hr).
  eexists. eapply element_of_elem, subscript_add_wrapped.
  - eapply subscript_add_wrapped.
    + apply (wrapped_operand_Done true). by eapply peek_lookup.
    + by eapply peek_lookup.
    + by rewrite (proj2 (Hplus x y)).
  - by eapply peek_lookup.
  - by rewrite (proj2 (Hplus xy z)).
Qed.

(** With a total [+], the sums exist at every index of same-length
    collections. *)
Lemma sum2_exists (A B : list E) n :
  supports E ADD → length A = n → length B = n →
  ∀ i, i < n → ∃ r, sum2_at A B i r.
Proof.
  intros Hplus HA HB i Hi.
  destruct (lookup_lt_is_Some_2 A i) as [x Hx]; [lia|].
  destruct (lookup_lt_is_Some_2 B i) as [y Hy]; [lia|].
  destruct (proj1 (Hplus x y)) as [r Hr]. by exists r, x, y.
Qed.

Lemma sum3_exists (A B C : list E) n :
  supports E ADD → length A = n → length B = n → length C = n →
  ∀ i, i < n → ∃ r, sum3_at A B C i r.
Proof.
  intros Hplus HA HB HC i Hi.
  destruct (sum2_exists A B n Hplus HA HB i Hi) as [xy Hxy].
  destruct (lookup_lt_is_Some_2 C i) as [z Hz]; [lia|].
  destruct (proj1 (Hplus xy z)) as [r Hr]. by exists r, xy, z.
Qed.

Lemma added_exists (D : list E) (S : nat → E → Prop) n :
  supports E ADD → length D = n → (∀ i, i < n → ∃ s, S i s) →
  ∀ i, i < n → ∃ r, added_at D S i r.
Proof.
  intros Hplus HD HS i Hi.
  destruct (lookup_lt_is_Some_2 D i) as [old Hold]; [lia|].
  destruct (HS i Hi) as [s Hs].
  destruct (proj1 (Hplus old s)) as [r Hr]. by exists r, old, s.
Qed.

(** [lazy_d = lazy_a + lazy_b + lazy_c;] *)
Lemma lazy_assign_Done (lazy_d lazy_a lazy_b lazy_c : Container) A B C D R m :
  supports E ADD →
  collections m !! m_container lazy_a = Some A →
  collections m !! m_container lazy_b = Some B →
  collections m !! m_container lazy_c = Some C →
  collections m !! m_container lazy_d = Some D →
  length R = length D →
  (∀ i r, R !! i = Some r → sum3_at A B C i r) →
  lazy_assign lazy_d lazy_a lazy_b lazy_c m
  = Done tt {| collections := <[m_container lazy_d := R]> (collections m);
               trace := trace m ++
                 flat_map (λ i, [ElemRead (m_container lazy_a) i;
                                 ElemRead (m_container lazy_b) i;
                                 ElemRead (m_container lazy_c) i;
                                 ElemWrite (m_container lazy_d) i])
                          (seq 0 (length D)) |}.
Proof.
  intros Hplus Ha Hb Hc Hd HR Hsum. unfold lazy_assign.
  rewrite (bind_Done _ _ _ _ _ (Container_plus _ _ _)).
  rewrite (bind_Done _ _ _ _ _ (BinaryExpression_plus _ _ _ _ _)).
  unfold Container_assign; simpl.
  rewrite (materialize_Done _ _ _ D R); [reflexivity | done..|].
  intros i r Hr. eapply element_of_sum3; eauto.
Qed.

(** The naive loop [D[i] = A[i] + B[i] + C[i]]. *)
Lemma naive_assign_Done d a b c A B C D R m :
  collections m !! a = Some A →
  collections m !! b = Some B →
  collections m !! c = Some C →
  collections m !! d = Some D →
  length R = length D →
  (∀ i r, R !! i = Some r → sum3_at A B C i r) →
  naive_assign (length D) d a b c m
  = Done tt {| collections := <[d := R]> (collections m);
               trace := trace m ++
                 flat_map (λ i, [ElemRead a i; ElemRead b i; ElemRead c i;
                                 ElemWrite d i])
                          (seq 0 (length D)) |}.
Proof.
  intros Ha Hb Hc Hd HR Hsum. unfold naive_assign.
  apply for_range_fused; [done..|].
  intros i r m1 L Hr Hagree HL Hlen.
  destruct (Hsum i r Hr) as (xy & z & (x & y & Hx & Hy & Hxy) & Hz & Hxyz).
  pose proof (lookup_lt_Some _ _ _ Hr) as Hi.
  destruct (lookup_lt_is_Some_2 L i) as [old Hold]; [lia|].
  erewrite bind_Done;
    [|by apply read_element_Done; rewrite Hagree; eapply peek_lookup].
  erewrite bind_Done;
    [|by apply read_element_Done; rewrite peek_log, Hagree; eapply peek_lookup].
  rewrite Hxy; simpl. unfold mbind at 1, M_bind at 1; simpl.
  erewrite bind_Done;
    [|by apply read_element_Done; rewrite !peek_log, Hagree; eapply peek_lookup].
  rewrite Hxyz; simpl. unfold mbind at 1, M_bind at 1; simpl.
  unfold write_element. erewrite modify_Done; [|done..]. simpl.
  by rewrite <- !app_assoc.
Qed.

End Sums.

(** ** Fusion correctness *)

(** C1. For collections [A], [B], [C], [D] of the same length whose element
    type supports [+], the statement [lazy_d = lazy_a + lazy_b + lazy_c]
    ends, turns [D] into a collection [R] with
    [R[i] = A[i] + B[i] + C[i]] at every index [i < D.size()] and leaves
    every other collection as it was.  It does so in one pass: at each
    index in turn it reads [A[i]], [B[i]], [C[i]] once and writes [D[i]].
    The naive elementwise loop has the very same outcome.  ([A], [B], [C]
    are the collections before the statement; [D] may be one of them.) *)
Theorem fusion_correctness (E : Element) (lazy_a lazy_b lazy_c lazy_d : Container)
    (A B C D : list E) (m : machine) :
  supports E ADD →
  collections m !! m_container lazy_a = Some A →
  collections m !! m_container lazy_b = Some B →
  collections m !! m_container lazy_c = Some C →
  collections m !! m_container lazy_d = Some D →
  length A = length D → length B = length D → length C = length D →
  ∃ R,
    lazy_assign lazy_d lazy_a lazy_b lazy_c m
    = Done tt {| collections := <[m_container lazy_d := R]> (collections m);
                 trace := trace m ++
                   flat_map (λ i, [ElemRead (m_container lazy_a) i;
                                   ElemRead (m_container lazy_b) i;
                                   ElemRead (m_container lazy_c) i;
                                   ElemWrite (m_container lazy_d) i])
                            (seq 0 (length D)) |}
    ∧ length R = length D
    ∧ (∀ i, i < length D → ∃ r, R !! i = Some r ∧ sum3_at A B C i r)
    ∧ naive_assign (length D) (m_container lazy_d) (m_container lazy_a)
        (m_container lazy_b) (m_container lazy_c) m
      = lazy_assign lazy_d lazy_a lazy_b lazy_c m.
Proof.
  intros Hplus Ha Hb Hc Hd HA HB HC.
  destruct (list_choice (sum3_at A B C) (length D)) as (R & HR & Hsum);
    [by apply sum3_exists|].
  exists R. rewrite (lazy_assign_Done _ _ _ _ A B C D R) by done.
  split; [done|]. split; [done|]. split.
  - intros i Hi. destruct (lookup_lt_is_Some_2 R i) as [r Hr]; [lia|]. eauto.
  - by apply (naive_assign_Done _ _ _ _ A B C).
Qed.

Lemma fusion_correctness_witness :
  let m := initial StdString.text
             [["x"; "x"]; ["y"; "y"]; ["z"; "z"]; [""; ""]]%string in
  ∃ R,
    lazy_assign {| m_container := 3 |} {| m_container := 0 |}
      {| m_container := 1 |} {| m_container := 2 |} m
    = Done tt {| collections := <[3 := R]> (collections m);
                 trace := trace m ++
                   flat_map (λ i, [ElemRead 0 i; ElemRead 1 i; ElemRead 2 i;
                                   ElemWrite 3 i])
                            (seq 0 2) |}
    ∧ length R = 2
    ∧ (∀ i, i < 2 → ∃ r, R !! i = Some r
         ∧ sum3_at (E:=StdString.text) ["x"; "x"]%string ["y"; "y"]%string
             ["z"; "z"]%string i r)
    ∧ naive_assign 2 3 0 1 2 m
      = lazy_assign {| m_container := 3 |} {| m_container := 0 |}
          {| m_container := 1 |} {| m_container := 2 |} m.
Proof.
  apply (fusion_correctness StdString.text {| m_container := 0 |}
           {| m_container := 1 |} {| m_container := 2 |} {| m_container := 3 |}
           ["x"; "x"]%string ["y"; "y"]%string ["z"; "z"]%string
           [""; ""]%string);
    try reflexivity.
  intros a b. split; [by eexists | reflexivity].
Defined.

(** ** Compound assignment *)

Section CompoundSums.

Context {E : Element}.
Implicit Types (m : machine (E:=E)) (c d : loc) (i : nat).

(** [lazy_d += lazy_a + lazy_b;] *)
Lemma lazy_add_assign2_Done (lazy_d lazy_a lazy_b : Container) A B D R m :
  supports E ADD →
  collections m !! m_container lazy_a = Some A →
  collections m !! m_container lazy_b = Some B →
  collections m !! m_container lazy_d = Some D →
  length R = length D →
  (∀ i r, R !! i = Some r → added_at D (sum2_at A B) i r) →
  lazy_add_assign2 lazy_d lazy_a lazy_b m
  = Done tt {| collections := <[m_container lazy_d := R]> (collections m);
               trace := trace m ++
                 flat_map (λ i, [ElemRead (m_container lazy_a) i;
                                 ElemRead (m_container lazy_b) i;
                                 ElemUpdate (m_container lazy_d) i])
                          (seq 0 (length D)) |}.
Proof.
  intros Hplus Ha Hb Hd HR Hsum. unfold lazy_add_assign2.
  rewrite (bind_Done _ _ _ _ _ (Container_plus _ _ _)).
  rewrite (compound_assign_Done _ _ _ _ D R); [reflexivity | done..|].
  intros i r Hr. destruct (Hsum i r Hr) as (old & s & Hold & Hs & Hadd).
  destruct (element_of_sum2 lazy_a lazy_b A B i m s) as [m' Hval]; [done..|].
  exists old, s, m'. by rewrite (proj2 (Hplus old s)).
Qed.

(** [lazy_d += lazy_a + lazy_b + lazy_c;] *)
Lemma lazy_add_assign_Done (lazy_d lazy_a lazy_b lazy_c : Container) A B C D R m :
  supports E ADD →
  collections m !! m_container lazy_a = Some A →
  collections m !! m_container lazy_b = Some B →
  collections m !! m_container lazy_c = Some C →
  collections m !! m_container lazy_d = Some D →
  length R = length D →
  (∀ i r, R !! i = Some r → added_at D (sum3_at A B C) i r) →
  lazy_add_assign lazy_d lazy_a lazy_b lazy_c m
  = Done tt {| collections := <[m_container lazy_d := R]> (collections m);
               trace := trace m ++
                 flat_map (λ i, [ElemRead (m_container lazy_a) i;
                                 ElemRead (m_container lazy_b) i;
                                 ElemRead (m_container lazy_c) i;
                                 ElemUpdate (m_container lazy_d) i])
                          (seq 0 (length D)) |}.
Proof.
  intros Hplus Ha Hb Hc Hd HR Hsum. unfold lazy_add_assign.
  rewrite (bind_Done _ _ _ _ _ (Container_plus _ _ _)).
  rewrite (bind_Done _ _ _ _ _ (BinaryExpression_plus _ _ _ _ _)).
  rewrite (compound_assign_Done _ _ _ _ D R); [reflexivity | done..|].
  intros i r Hr. destruct (Hsum i r Hr) as (old & s & Hold & Hs & Hadd).
  destruct (element_of_sum3 lazy_a lazy_b lazy_c A B C i m s) as [m' Hval]; [done..|].
  exists old, s, m'. by rewrite (proj2 (Hplus old s)).
Qed.

(** The loop of [Test.cpp], [d[i] += a[i] + b[i] + c[i]]. *)
Lemma scalar_add_assign_Done d a b c A B C D R m :
  supports E ADD →
  collections m !! a = Some A →
  collections m !! b = Some B →
  collections m !! c = Some C →
  collections m !! d = Some D →
  length R = length D →
  (∀ i r, R !! i = Some r → added_at D (sum3_at A B C) i r) →
  scalar_add_assign (length D) d a b c m
  = Done tt {| collections := <[d := R]> (collections m);
               trace := trace m ++
                 flat_map (λ i, [ElemRead a i; ElemRead b i; ElemRead c i;
                                 ElemUpdate d i])
                          (seq 0 (length D)) |}.
Proof.
  intros Hplus Ha Hb Hc Hd HR Hsum. unfold scalar_add_assign.
  apply for_range_fused; [done..|].
  intros i r m1 L Hr Hagree HL Hlen.
  destruct (Hsum i r Hr)
    as (old & s & Hold & (xy & z & (x & y & Hx & Hy & Hxy) & Hz & Hxyz) & Hadd).
  assert (L !! i = Some old) as HLi.
  { specialize (Hagree d). unfold peek in Hagree.
    rewrite HL, Hd in Hagree. simpl in Hagree. congruence. }
  erewrite bind_Done;
    [|by apply read_element_Done; rewrite Hagree; eapply peek_lookup].
  erewrite bind_Done;
    [|by apply read_element_Done; rewrite peek_log, Hagree; eapply peek_lookup].
  rewrite Hxy; simpl. unfold mbind at 1, M_bind at 1; simpl.
  erewrite bind_Done;
    [|by apply read_element_Done; rewrite !peek_log, Hagree; eapply peek_lookup].
  rewrite Hxyz; simpl. unfold mbind at 1, M_bind at 1; simpl.
  unfold update_element. erewrite modify_Done; [|done..|by rewrite (proj2 (Hplus old s))].
  simpl. by rewrite <- !app_assoc.
Qed.

(** With an associative [+], [D[i] + (A[i] + B[i])] is
    [(D[i] + A[i]) + B[i]]. *)
Lemma added_sum2_assoc (A B D : list E) i r :
  supports E ADD → associative E ADD →
  added_at D (sum2_at A B) i r → sum3_at D A B i r.
Proof.
  intros Hplus Hassoc (old & s & Hold & (x & y & Hx & Hy & Hs) & Hr).
  destruct (proj1 (Hplus old x)) as [ox Hox].
  pose proof (Hassoc old x y) as Heq. rewrite Hox, Hs in Heq. simpl in Heq.
  exists ox, y. split; [by exists old, x|]. split; [done | congruence].
Qed.

End CompoundSums.

(** C2. For collections [A], [B], [C], [D] of the same length whose element
    type supports [+] and [+=]:
    - [lazy_d += lazy_a + lazy_b] ends and turns [D] into [R2] with
      [R2[i] = D[i] + (A[i] + B[i])] at every index, the grouping in which
      the loop adds; when [+] is associative this is
      [(D[i] + A[i]) + B[i]];
    - [lazy_d += lazy_a + lazy_b + lazy_c] ends and turns [D] into [R3]
      with [R3[i] = D[i] + ((A[i] + B[i]) + C[i])], as the elementwise
      loop of [Test.cpp] does;
    - on the integers [A = [1,2,3]], [B = [10,20,30]],
      [C = [100,200,300]], [D = [0,0,0]] the second statement leaves
      [D = [111,222,333]].
    [A], [B], [C], [D] are the collections before the statement. *)
Theorem compound_assignment_correctness :
  (∀ (E : Element) (lazy_a lazy_b lazy_c lazy_d : Container)
     (A B C D : list E) (m : machine),
     supports E ADD →
     collections m !! m_container lazy_a = Some A →
     collections m !! m_container lazy_b = Some B →
     collections m !! m_container lazy_c = Some C →
     collections m !! m_container lazy_d = Some D →
     length A = length D → length B = length D → length C = length D →
     ∃ R2 R3,
       lazy_add_assign2 lazy_d lazy_a lazy_b m
       = Done tt {| collections := <[m_container lazy_d := R2]> (collections m);
                    trace := trace m ++
                      flat_map (λ i, [ElemRead (m_container lazy_a) i;
                                      ElemRead (m_container lazy_b) i;
                                      ElemUpdate (m_container lazy_d) i])
                               (seq 0 (length D)) |}
       ∧ length R2 = length D
       ∧ (∀ i, i < length D →
            ∃ r, R2 !! i = Some r ∧ added_at D (sum2_at A B) i r
                 ∧ (associative E ADD → sum3_at D A B i r))
       ∧ lazy_add_assign lazy_d lazy_a lazy_b lazy_c m
         = Done tt {| collections := <[m_container lazy_d := R3]> (collections m);
                      trace := trace m ++
                        flat_map (λ i, [ElemRead (m_container lazy_a) i;
                                        ElemRead (m_container lazy_b) i;
                                        ElemRead (m_container lazy_c) i;
                                        ElemUpdate (m_container lazy_d) i])
                                 (seq 0 (length D)) |}
       ∧ length R3 = length D
       ∧ (∀ i, i < length D →
            ∃ r, R3 !! i = Some r ∧ added_at D (sum3_at A B C) i r)
       ∧ scalar_add_assign (length D) (m_container lazy_d) (m_container lazy_a)
           (m_container lazy_b) (m_container lazy_c) m
         = lazy_add_assign lazy_d lazy_a lazy_b lazy_c m)
  ∧ contents
      (lazy_add_assign (E:=Int32.int) {| m_container := 3 |}
         {| m_container := 0 |} {| m_container := 1 |} {| m_container := 2 |}
         (initial Int32.int
            [[1; 2; 3]; [10; 20; 30]; [100; 200; 300]; [0; 0; 0]]%Z)) 3
    = Some [111; 222; 333]%Z.
Proof.
  split; [|reflexivity].
  intros E lazy_a lazy_b lazy_c lazy_d A B C D m Hplus Ha Hb Hc Hd HA HB HC.
  destruct (list_choice (added_at D (sum2_at A B)) (length D)) as (R2 & HR2 & H2).
  { apply added_exists; [done..|]. by apply sum2_exists. }
  destruct (list_choice (added_at D (sum3_at A B C)) (length D)) as (R3 & HR3 & H3).
  { apply added_exists; [done..|]. by apply sum3_exists. }
  exists R2, R3.
  rewrite (lazy_add_assign2_Done _ _ _ A B D R2) by done.
  rewrite (lazy_add_assign_Done _ _ _ _ A B C D R3) by done.
  repeat split; try done.
  - intros i Hi. destruct (lookup_lt_is_Some_2 R2 i) as [r Hr]; [lia|].
    exists r. split; [done|]. split; [by apply H2|].
    intros Hassoc. apply added_sum2_assoc; [done..|]. by apply H2.
  - intros i Hi. destruct (lookup_lt_is_Some_2 R3 i) as [r Hr]; [lia|]. eauto.
  - by apply (scalar_add_assign_Done _ _ _ _ A B C).
Qed.

Lemma compound_assignment_correctness_witness :
  let m := initial Int32.int
             [[1; 2; 3]; [10; 20; 30]; [100; 200; 300]; [0; 0; 0]]%Z in
  ∃ R2 R3 : list Int32.int,
    lazy_add_assign2 {| m_container := 3 |} {| m_container := 0 |}
      {| m_container := 1 |} m
    = Done tt {| collections := <[3 := R2]> (collections m);
                 trace := trace m ++
                   flat_map (λ i, [ElemRead 0 i; ElemRead 1 i; ElemUpdate 3 i])
                            (seq 0 3) |}
    ∧ length R2 = 3
    ∧ (∀ i, i < 3 →
         ∃ r, R2 !! i = Some r
              ∧ added_at (E:=Int32.int) [0; 0; 0]%Z
                  (sum2_at (E:=Int32.int) [1; 2; 3]%Z [10; 20; 30]%Z) i r
              ∧ (associative Int32.int ADD →
                 sum3_at (E:=Int32.int) [0; 0; 0]%Z [1; 2; 3]%Z [10; 20; 30]%Z i r))
    ∧ lazy_add_assign {| m_container := 3 |} {| m_container := 0 |}
        {| m_container := 1 |} {| m_container := 2 |} m
      = Done tt {| collections := <[3 := R3]> (collections m);
                   trace := trace m ++
                     flat_map (λ i, [ElemRead 0 i; ElemRead 1 i; ElemRead 2 i;
                                     ElemUpdate 3 i])
                              (seq 0 3) |}
    ∧ length R3 = 3
    ∧ (∀ i, i < 3 →
         ∃ r, R3 !! i = Some r
              ∧ added_at (E:=Int32.int) [0; 0; 0]%Z
                  (sum3_at (E:=Int32.int) [1; 2; 3]%Z [10; 20; 30]%Z
                     [100; 200; 300]%Z) i r)
    ∧ scalar_add_assign 3 3 0 1 2 m
      = lazy_add_assign {| m_container := 3 |} {| m_container := 0 |}
          {| m_container := 1 |} {| m_container := 2 |} m.
Proof.
  apply (proj1 compound_assignment_correctness Int32.int
           {| m_container := 0 |} {| m_container := 1 |} {| m_container := 2 |}
           {| m_container := 3 |}
           [1; 2; 3]%Z [10; 20; 30]%Z [100; 200; 300]%Z [0; 0; 0]%Z);
    try reflexivity.
  intros a b. split; [by eexists | reflexivity].
Defined.

(** ** Composition of expression nodes *)

Lemma BinaryExpression_operators_all (xi_operator : Operator) :
  xi_operator ∈ BinaryExpression_operators.
Proof. destruct xi_operator; unfold BinaryExpression_operators; set_solver. Qed.

(** C3. Composing a node [E] with a right-hand operand through any of the
    operators of [BinaryExpression] gives a node carrying the tag of [E]
    itself, whichever operator was invoked.  On the integers
    [A = [1,2,3]], [B = [10,20,30]], [C = [100,200,300]] the expression
    [(A + B) - C] therefore evaluates to [A[i] + B[i] + C[i]]: 111 at
    index 0 and [D = [111,222,333]] once assigned, where
    [A[0] + B[0] - C[0]] is -89.  The operator [-] of a wrapper does
    subtract: [A - C] is -99 at index 0. *)
Theorem composition_reuses_tag :
  (∀ (E : Element) (xi_operator : Operator) (l r re : Expr) (op : BinaryOp)
     (m : machine (E:=E)),
     BinaryExpression_operator xi_operator (BinaryExpression l op r) re m
     = Done (BinaryExpression (BinaryExpression l op r) op re) m)
  ∧ (let m := initial Int32.int
                [[1; 2; 3]; [10; 20; 30]; [100; 200; 300]; [0; 0; 0]]%Z in
     let a := Wrapped false {| m_container := 0 |} in
     let b := Wrapped false {| m_container := 1 |} in
     let c := Wrapped false {| m_container := 2 |} in
     chain a [(tok_plus, b); (tok_minus, c)] m
     = Done (BinaryExpression
               (BinaryExpression (Wrapped true {| m_container := 0 |}) (numeric ADD) b)
               (numeric ADD) c) m
     ∧ (e ← chain a [(tok_plus, b); (tok_minus, c)]; element_of e 0) m
       = Done 111%Z (log [ElemRead 0 0; ElemRead 1 0; ElemRead 2 0] m)
     ∧ (xy ← binary (E:=Int32.int) ADD 1%Z 10%Z; binary (E:=Int32.int) SUB xy 100%Z)
       = Some (-89)%Z
     ∧ contents
         ((e ← chain a [(tok_plus, b); (tok_minus, c)];
           Container_assign {| m_container := 3 |} e) m) 3
       = Some [111; 222; 333]%Z
     ∧ (e ← chain a [(tok_minus, c)]; element_of e 0) m
       = Done (-99)%Z (log [ElemRead 0 0; ElemRead 2 0] m)).
Proof.
  split.
  - intros E xi_operator l r re op m. unfold BinaryExpression_operator.
    by rewrite decide_True by apply BinaryExpression_operators_all.
  - repeat split; reflexivity.
Qed.

(** ** The [apply] overloads *)

(** C4. The overload [apply(const T& a, T&& b)] of a numeric tag runs
    [b xi_assign_operator a] and returns [b]: the operands are swapped.
    For [SUB] on the integers 5 and 3 it returns -2 where [5 - 3] is 2,
    for [DIV] on 6 and 3 it returns 0 where [6 / 3] is 2, for [SHL] on 1
    and 3 it returns 6 where [1 << 3] is 8, and for [ADD] on the texts "x"
    and "y" it returns "yx" where ["x" + "y"] is "xy".  The other three
    overloads return the value of [a xi_assign_operator b] or of
    [a xi_operator b]. *)
Theorem apply_const_rvalue_swaps :
  (∀ (E : Element) (o : Numeric) (a b : E),
     returned <$> apply_numeric o lvalue prvalue a b = compound o b a
     ∧ returned <$> apply_numeric o lvalue lvalue a b = binary o a b
     ∧ returned <$> apply_numeric o prvalue lvalue a b = compound o a b
     ∧ returned <$> apply_numeric o prvalue prvalue a b = compound o a b)
  ∧ (returned <$> apply_numeric (E:=Int32.int) SUB lvalue prvalue 5%Z 3%Z = Some (-2)%Z
     ∧ binary (E:=Int32.int) SUB 5%Z 3%Z = Some 2%Z)
  ∧ (returned <$> apply_numeric (E:=Int32.int) DIV lvalue prvalue 6%Z 3%Z = Some 0%Z
     ∧ binary (E:=Int32.int) DIV 6%Z 3%Z = Some 2%Z)
  ∧ (returned <$> apply_numeric (E:=Int32.int) SHL lvalue prvalue 1%Z 3%Z = Some 6%Z
     ∧ binary (E:=Int32.int) SHL 1%Z 3%Z = Some 8%Z)
  ∧ (returned <$> apply_numeric (E:=StdString.text) ADD lvalue prvalue "x"%string "y"%string
     = Some "yx"%string
     ∧ binary (E:=StdString.text) ADD "x"%string "y"%string = Some "xy"%string).
Proof.
  split; [|repeat split; reflexivity].
  intros E o a b. unfold apply_numeric.
  repeat split.
  - by destruct (compound o b a).
  - by destruct (binary o a b).
  - by destruct (compound o a b).
  - by destruct (compound o a b).
Qed.

(** ** Construction from an expression *)

(** C5. The constructor taking an expression has no mem-initializer for
    [m_container]: the wrapper it builds is bound to no collection, there
    is nothing to iterate over, and no store results, whatever the
    expression.  For the texts [A = ["x","x"]], [B = ["y","y"]] and a fresh
    destination of size 2, [Container(A + B)] leaves no result, while the
    same loop run by the assignment on a wrapper bound to the destination
    yields [["xy","xy"]]. *)
Theorem constructor_from_expression_unbound :
  (∀ (E : Element) (xi_expression : Expr) (m : machine (E:=E)),
     Container_from_expression xi_expression m
     = Failed (if is_binary_expression xi_expression
               then unbound_reference else not_an_expression))
  ∧ (let m := initial StdString.text [["x"; "x"]; ["y"; "y"]; [""; ""]]%string in
     let a := {| m_container := 0 |} in
     let b := Wrapped false {| m_container := 1 |} in
     (e ← Container_operator tok_plus a b; Container_from_expression e) m
     = Failed unbound_reference
     ∧ contents
         ((e ← Container_operator tok_plus a b;
           d ← Container_from_collection 2;
           Container_assign d e) m) 2
       = Some ["xy"; "xy"]%string).
Proof.
  split; [|split; reflexivity].
  intros E e m. unfold Container_from_expression.
  by destruct (is_binary_expression e).
Qed.

(** ** The operators of the wrapper *)

(** C6. No operator template of [Container] overloads [|]: the template
    that instantiates the bitwise-or tag [LOR] is declared as a second
    [operator &].  So [wrapper | rhs] finds no operator and builds no
    node, and [wrapper & rhs] finds two equally good candidates, [LAND]
    and [LOR]. *)
Theorem Container_has_no_pipe :
  (∀ (E : Element) (self : Container) (xi_expression : Expr) (m : machine (E:=E)),
     Container_operator tok_pipe self xi_expression m = Failed no_viable_operator
     ∧ Container_operator tok_amp self xi_expression m = Failed ambiguous_operator)
  ∧ candidates tok_pipe = []
  ∧ candidates tok_amp = [numeric LAND; numeric LOR]
  ∧ filter (λ d, d.2 = numeric LOR) Container_operators = [(tok_amp, numeric LOR)].
Proof. repeat split; reflexivity. Qed.

(** ** One pass, one read per leaf and index *)

Lemma loads_of_app c i t1 t2 :
  loads_of c i (t1 ++ t2) = loads_of c i t1 + loads_of c i t2.
Proof. unfold loads_of. by rewrite filter_app, length_app. Qed.

Lemma loads_of_leaves (l : list loc) j c i :
  NoDup l →
  loads_of c i ((λ c, ElemRead c j) <$> l)
  = if decide (c ∈ l ∧ i = j) then 1 else 0.
Proof.
  induction l as [|x l IH]; intros Hnd.
  - rewrite decide_False; [done|]. intros [H _]. by apply elem_of_nil in H.
  - apply NoDup_cons in Hnd as [Hx Hnd]. specialize (IH Hnd).
    rewrite fmap_cons. unfold loads_of in *. rewrite filter_cons.
    destruct (decide (ElemRead x j = ElemRead c i)) as [Heq|Hne].
    + injection Heq as -> ->. simpl. rewrite IH.
      rewrite decide_False by (intros [? _]; done).
      rewrite decide_True; [done|]. split; [apply list_elem_of_here | done].
    + rewrite IH. destruct (decide (c ∈ l ∧ i = j)) as [[Hc ->]|Hn].
      * rewrite decide_True; [done|]. split; [by apply list_elem_of_further | done].
      * rewrite decide_False; [done|]. intros [[->|Hc]%elem_of_cons ->]; [done|].
        by apply Hn.
Qed.

Lemma count_and (P Q : Prop) `{!Decision P, !Decision Q} :
  (if decide (P ∧ Q) then 1 else 0)
  = (if decide P then 1 else 0) * (if decide Q then 1 else 0).
Proof. repeat case_decide; tauto || lia. Qed.

Lemma loads_of_pass e (last : nat → event) c i :
  (∀ j, last j ≠ ElemRead c i) → NoDup (leaves e) →
  ∀ n s, loads_of c i (flat_map (λ j, reads e j ++ [last j]) (seq s n))
         = if decide (c ∈ leaves e ∧ s ≤ i < s + n) then 1 else 0.
Proof.
  intros Hlast Hnd. induction n as [|n IH]; intros s.
  - simpl. rewrite decide_False; [done | lia].
  - simpl. rewrite !loads_of_app, IH. unfold reads.
    rewrite loads_of_leaves by done.
    assert (loads_of c i [last s] = 0) as ->.
    { unfold loads_of. rewrite filter_cons, decide_False by apply Hlast. done. }
    rewrite !count_and. repeat case_decide; lia.
Qed.

(** C7. Evaluating a tree whose leaves are pairwise distinct at index [i]
    reads the element [i] of every leaf exactly once and reads nothing
    else.  One materialisation of such a tree, by assignment or by
    compound assignment, reads the element [i] of every leaf exactly once
    for every index [i] of the destination, and reads nothing else; the
    destination itself is written, or updated in place, once per index. *)
Theorem single_pass :
  (∀ (E : Element) (e : Expr) (i : nat) (m m' : machine (E:=E)) r,
     NoDup (leaves e) →
     subscript e i m = Done r m' →
     ∃ t, m' = log t m ∧
          ∀ c j, loads_of c j t = if decide (c ∈ leaves e ∧ j = i) then 1 else 0)
  ∧ (∀ (E : Element) (self : Container) (e : Expr) (o : Numeric)
       (m m' : machine (E:=E)),
       NoDup (leaves e) →
       Container_assign self e m = Done tt m'
       ∨ Container_compound_assign o self e m = Done tt m' →
       ∃ D t, collections m !! m_container self = Some D
              ∧ trace m' = trace m ++ t
              ∧ ∀ c i, loads_of c i t
                       = if decide (c ∈ leaves e ∧ i < length D) then 1 else 0).
Proof.
  split.
  - intros E e i m m' r Hnd [-> _]%subscript_Done.
    exists (reads e i). split; [done|]. intros c j. by apply loads_of_leaves.
  - intros E self e o m m' Hnd [H|H].
    + unfold Container_assign in H. destruct (is_binary_expression e); [|done].
      apply materialize_trace in H as (D & HD & Ht).
      exists D, (pass e (ElemWrite (m_container self)) (length D)).
      split; [done|]. split; [done|]. intros c i. unfold pass.
      rewrite loads_of_pass by done.
      rewrite !count_and. repeat case_decide; lia.
    + apply compound_assign_trace in H as (D & HD & Ht).
      exists D, (pass e (ElemUpdate (m_container self)) (length D)).
      split; [done|]. split; [done|]. intros c i. unfold pass.
      rewrite loads_of_pass by done.
      rewrite !count_and. repeat case_decide; lia.
Qed.

Lemma single_pass_witness :
  let m := initial Int32.int
             [[1; 2; 3]; [10; 20; 30]; [100; 200; 300]; [0; 0; 0]]%Z in
  let e := BinaryExpression (Wrapped true {| m_container := 0 |}) (numeric ADD)
             (Wrapped false {| m_container := 1 |}) in
  let m' := match Container_compound_assign ADD {| m_container := 3 |} e m with
            | Done _ m' => m'
            | Failed _ => m
            end in
  ∃ (D : list Int32.int) t,
    collections m !! 3 = Some D
    ∧ trace m' = trace m ++ t
    ∧ ∀ c i, loads_of c i t = if decide (c ∈ leaves e ∧ i < length D) then 1 else 0.
Proof.
  apply (proj2 single_pass Int32.int {| m_container := 3 |}
           (BinaryExpression (Wrapped true {| m_container := 0 |}) (numeric ADD)
              (Wrapped false {| m_container := 1 |})) ADD).
  - apply NoDup_cons. split; [|apply NoDup_singleton].
    intros H%list_elem_of_singleton. discriminate H.
  - right. reflexivity.
Defined.

(** ** Relational and logical tags *)

(** C8. Each of the four [apply] overloads of a relational or logical tag
    returns the [bool] value of [a xi_operator b] and leaves both
    operands holding the values they had, whether they were passed as
    lvalues or as rvalues. *)
Theorem relational_apply_keeps_operands (E : Element) (o : Relational)
    (ca cb : category) (a b : E) :
  apply_relational o ca cb a b
  = (λ r : bool, Applied r (Some a) (Some b)) <$> relation o a b.
Proof. destruct ca, cb; simpl; by destruct (relation o a b). Qed.

(** ** Composition touches no element *)

Lemma compose_frame {E : Element} xi_operator lhs rhs (m m' : machine (E:=E)) e :
  compose xi_operator lhs rhs m = Done e m' → m' = m.
Proof.
  destruct lhs as [w|c|l op r]; simpl; [|done|].
  - unfold Container_operator. intros (tag & m1 & Htag & H)%bind_inv.
    injection H as <- <-. unfold resolve in Htag.
    destruct (candidates xi_operator) as [|t [|? ?]]; [done| |done].
    by injection Htag as <- <-.
  - case_decide; [|done]. by intros [= <- <-].
Qed.

(** C9. Building an expression tree with the operators of wrappers and
    nodes reads and writes no element: a chain of compositions that
    type-checks returns its tree and leaves the store, with every
    collection in it, and the log of element accesses exactly as they
    were.  The chain [A + B + C] does type-check, and returns
    [(A + B) + C]. *)
Theorem composition_has_no_side_effects :
  (∀ (E : Element) (lhs : Expr) (rest : list (Operator * Expr))
     (m m' : machine (E:=E)) (e : Expr),
     chain lhs rest m = Done e m' → m' = m)
  ∧ (∀ (E : Element) (a b c : Container) (m : machine (E:=E)),
       chain (Wrapped false a) [(tok_plus, Wrapped false b); (tok_plus, Wrapped false c)] m
       = Done (BinaryExpression
                 (BinaryExpression (Wrapped true a) (numeric ADD) (Wrapped false b))
                 (numeric ADD) (Wrapped false c)) m).
Proof.
  split; [|done].
  intros E lhs rest. revert lhs. induction rest as [|[xi_operator rhs] rest IH];
    intros lhs m m' e H; simpl in H.
  - by injection H as <- <-.
  - apply bind_inv in H as (e1 & m1 & H1 & H).
    apply compose_frame in H1 as ->. by eapply IH.
Qed.

Lemma composition_has_no_side_effects_witness :
  let m := initial Int32.int [[1; 2; 3]; [10; 20; 30]; [100; 200; 300]]%Z in
  let m' := match chain (Wrapped false {| m_container := 0 |})
                    [(tok_plus, Wrapped false {| m_container := 1 |});
                     (tok_minus, Wrapped false {| m_container := 2 |})] m with
            | Done _ m' => m'
            | Failed _ => initial Int32.int []
            end in
  m' = m.
Proof.
  apply (proj1 composition_has_no_side_effects Int32.int
           (Wrapped false {| m_container := 0 |})
           [(tok_plus, Wrapped false {| m_container := 1 |});
            (tok_minus, Wrapped false {| m_container := 2 |})]
           (initial Int32.int [[1; 2; 3]; [10; 20; 30]; [100; 200; 300]]%Z)
           _
           (BinaryExpression
              (BinaryExpression (Wrapped true {| m_container := 0 |}) (numeric ADD)
                 (Wrapped false {| m_container := 1 |}))
              (numeric ADD) (Wrapped false {| m_container := 2 |}))).
  reflexivity.
Defined.

(** ** Indexing a wrapper *)

(** C10. Both overloads of [Container::operator[]] return the element by
    value: for an index [i] in range, [w[i]] is a temporary holding a copy
    of [c[i]], and assigning through it leaves the collection as it was.
    Assigning through [c[i]] itself, a reference, does change the
    collection. *)
Theorem Container_subscript_by_value (E : Element) (is_const : bool)
    (self : Container) (i : nat) (m : machine) (l : list E) (x v : E) :
  collections m !! m_container self = Some l →
  l !! i = Some x →
  Container_subscript is_const self i m
  = Done (temporary x) (log [ElemRead (m_container self) i] m)
  ∧ (r ← Container_subscript is_const self i; assign r v) m
    = Done tt (log [ElemRead (m_container self) i] m)
  ∧ collections (log [ElemRead (m_container self) i] m) = collections m
  ∧ (r ← collection_subscript (m_container self) i; assign r v) m
    = Done tt {| collections := <[m_container self := <[i := v]> l]> (collections m);
                 trace := trace m ++ [ElemWrite (m_container self) i] |}.
Proof.
  intros Hc Hi. pose proof (lookup_lt_Some _ _ _ Hi) as Hlt.
  assert (Container_subscript is_const self i m
          = Done (temporary x) (log [ElemRead (m_container self) i] m)) as Hsub.
  { unfold Container_subscript.
    destruct is_const.
    - erewrite bind_Done; [|by eapply collection_subscript_Done]. simpl.
      erewrite bind_Done; [|by eapply read_element_Done, peek_lookup]. reflexivity.
    - erewrite bind_Done; [|by eapply collection_subscript_Done]. simpl.
      erewrite bind_Done; [|by eapply read_element_Done, peek_lookup]. reflexivity. }
  split; [done|]. split; [by rewrite (bind_Done _ _ _ _ _ Hsub)|]. split; [done|].
  erewrite bind_Done; [|by eapply collection_subscript_Done]. simpl.
  unfold write_element. by erewrite modify_Done.
Qed.

Lemma Container_subscript_by_value_witness :
  let m := initial StdString.text [["x"; "y"]]%string in
  let w := {| m_container := 0 |} in
  Container_subscript false w 1 m
  = Done (temporary (E:=StdString.text) "y"%string) (log [ElemRead 0 1] m)
  ∧ (r ← Container_subscript false w 1; assign (E:=StdString.text) r "z"%string) m
    = Done tt (log [ElemRead 0 1] m)
  ∧ collections (log [ElemRead 0 1] m) = collections m
  ∧ (r ← collection_subscript 0 1; assign (E:=StdString.text) r "z"%string) m
    = Done tt {| collections := <[0 := <[1 := "z"%string]> ["x"; "y"]%string]> (collections m);
                 trace := trace m ++ [ElemWrite 0 1] |}.
Proof.
  apply (Container_subscript_by_value StdString.text false {| m_container := 0 |} 1
           (initial StdString.text [["x"; "y"]]%string) ["x"; "y"]%string
           "y"%string "z"%string); reflexivity.
Defined.

(** * Further properties of the header *)

(** ** Assignment and compound assignment from any expression *)

Section AnyExpression.

Context {E : Element}.
Implicit Types (m : machine (E:=E)) (e : Expr) (c d : loc) (i : nat).

(** X1. Assignment from an expression tree, whatever its shape: if the
    tree has the value [R[i]] at every index [i] of the destination in
    the store before the statement, then [lazy_d = e] ends, turns the
    destination into [R] in one pass and changes no other collection.
    The destination may itself be a leaf of the tree, and the operands
    may be longer than the destination. *)
Theorem assignment_from_expression (self : Container) e m (D R : list E) :
  is_binary_expression e = true →
  collections m !! m_container self = Some D →
  length R = length D →
  (∀ i x, R !! i = Some x → element_of e i m = Done x (log (reads e i) m)) →
  Container_assign self e m
  = Done tt {| collections := <[m_container self := R]> (collections m);
               trace := trace m ++ pass e (ElemWrite (m_container self)) (length D) |}.
Proof.
  intros Hbin Hd HR Hval. unfold Container_assign. rewrite Hbin.
  apply materialize_Done; [done..|]. eauto.
Qed.

(** X2. Compound assignment from an expression tree, for each of the nine
    operators [+=] ... [>>=]: if the tree has the value [v] at index [i]
    in the store before the statement and [D[i] op= v] leaves [R[i]],
    for every index of the destination, then [lazy_d op= e] ends, turns
    the destination into [R] in one pass and changes no other
    collection. *)
Theorem compound_assignment_from_expression o (self : Container) e m (D R : list E) :
  is_binary_expression e = true →
  collections m !! m_container self = Some D →
  length R = length D →
  (∀ i x, R !! i = Some x →
     ∃ old v, D !! i = Some old ∧ element_of e i m = Done v (log (reads e i) m)
              ∧ compound o old v = Some x) →
  Container_compound_assign o self e m
  = Done tt {| collections := <[m_container self := R]> (collections m);
               trace := trace m ++ pass e (ElemUpdate (m_container self)) (length D) |}.
Proof.
  intros Hbin Hd HR Hval. apply (compound_assign_Done _ _ _ _ D); [done..|].
  intros i x Hx. destruct (Hval i x Hx) as (old & v & ? & ? & ?). eauto 10.
Qed.

End AnyExpression.

Lemma assignment_from_expression_witness :
  let m := initial Int32.int [[1; 2]; [10; 20]]%Z in
  let e := BinaryExpression (Wrapped true {| m_container := 0 |}) (numeric SUB)
             (Collection 1) in
  Container_assign {| m_container := 0 |} e m
  = Done tt {| collections := <[0 := [-9; -18]%Z]> (collections m);
               trace := trace m ++ pass e (ElemWrite 0) 2 |}.
Proof.
  apply (assignment_from_expression (E:=Int32.int) {| m_container := 0 |}
           (BinaryExpression (Wrapped true {| m_container := 0 |}) (numeric SUB)
              (Collection 1))
           (initial Int32.int [[1; 2]; [10; 20]]%Z) [1; 2]%Z [-9; -18]%Z);
    try reflexivity.
  intros [|[|i]] x Hx; try discriminate Hx; injection Hx as <-; reflexivity.
Defined.

Lemma compound_assignment_from_expression_witness :
  let m := initial Int32.int [[1; 2]; [10; 20]]%Z in
  let e := BinaryExpression (Wrapped true {| m_container := 0 |}) (numeric MUL)
             (Wrapped false {| m_container := 1 |}) in
  Container_compound_assign SUB {| m_container := 0 |} e m
  = Done tt {| collections := <[0 := [-9; -38]%Z]> (collections m);
               trace := trace m ++ pass e (ElemUpdate 0) 2 |}.
Proof.
  apply (compound_assignment_from_expression (E:=Int32.int) SUB {| m_container := 0 |}
           (BinaryExpression (Wrapped true {| m_container := 0 |}) (numeric MUL)
              (Wrapped false {| m_container := 1 |}))
           (initial Int32.int [[1; 2]; [10; 20]]%Z) [1; 2]%Z [-9; -38]%Z);
    try reflexivity.
  intros [|[|i]] x Hx; try discriminate Hx; injection Hx as <-.
  - by exists 1%Z, 10%Z.
  - by exists 2%Z, 40%Z.
Defined.

(** ** What a materialisation that ends has done *)

Section Inversion.

Context {E : Element}.
Implicit Types (m : machine (E:=E)) (e : Expr) (c d : loc) (i : nat).

Lemma for_range_invariant (body : nat → M unit) (Inv : nat → machine → Prop) :
  (∀ i m m', Inv i m → body i m = Done tt m' → Inv (S i) m') →
  ∀ k i m m', Inv i m → for_range i k body m = Done tt m' → Inv (i + k) m'.
Proof.
  intros Hstep. induction k as [|k IH]; intros i m m' Hinv H; simpl in H.
  - injection H as <-. by replace (i + 0) with i by lia.
  - apply bind_inv in H as ([] & m1 & H1 & H).
    replace (i + S k) with (S i + k) by lia. eauto.
Qed.

(** The loop over a destination [d], read backwards: if every iteration
    that ends has replaced element [i] of [d] by some [r] with [P i r]
    and touched nothing else, then so has the loop, index by index. *)
Lemma for_range_inversion (body : nat → M unit) d m (D : list E) (P : nat → E → Prop) :
  collections m !! d = Some D →
  (∀ i m1 m2 L1,
     collections m1 = <[d := L1]> (collections m) → length L1 = length D →
     (∀ j, i ≤ j → L1 !! j = D !! j) →
     body i m1 = Done tt m2 →
     ∃ r, i < length D ∧ collections m2 = <[d := <[i := r]> L1]> (collections m)
          ∧ P i r) →
  ∀ n m', for_range 0 n body m = Done tt m' →
    ∃ R, collections m' = <[d := R]> (collections m) ∧ length R = length D
         ∧ (∀ j, n ≤ j → R !! j = D !! j)
         ∧ (∀ j, j < n → ∃ r, R !! j = Some r ∧ P j r).
Proof.
  intros Hd Hbody n m' H.
  apply (for_range_invariant body (λ i m1,
           ∃ L1, collections m1 = <[d := L1]> (collections m) ∧ length L1 = length D
                 ∧ (∀ j, i ≤ j → L1 !! j = D !! j)
                 ∧ (∀ j, j < i → ∃ r, L1 !! j = Some r ∧ P j r))) in H.
  - simpl in H. done.
  - intros i m1 m2 (L1 & Hm1 & Hlen & Hrest & Hdone) Hrun.
    destruct (Hbody i m1 m2 L1 Hm1 Hlen Hrest Hrun) as (r & Hi & Hm2 & HP).
    exists (<[i := r]> L1). split; [done|]. split; [by rewrite length_insert|].
    split.
    + intros j Hj. rewrite list_lookup_insert_ne by lia. apply Hrest. lia.
    + intros j Hj. destruct (decide (j = i)) as [->|Hne].
      * exists r. split; [|done]. apply list_lookup_insert_eq. lia.
      * rewrite list_lookup_insert_ne by done. apply Hdone. lia.
  - exists D. split; [by rewrite insert_id|]. split; [done|]. split; [done|].
    intros j Hj. lia.
Qed.

(** In a store that differs from [m] only in elements of [d] below index
    [i], every element at index [i] is the one of [m]. *)
Lemma peek_insert_agree m m1 d (D L1 : list E) i :
  collections m !! d = Some D →
  collections m1 = <[d := L1]> (collections m) →
  (∀ j, i ≤ j → L1 !! j = D !! j) →
  ∀ c, peek m c i = peek m1 c i.
Proof.
  intros Hd Hm1 Hrest c. unfold peek. rewrite Hm1.
  destruct (decide (c = d)) as [->|Hne].
  - rewrite lookup_insert_eq, Hd. simpl. symmetry. by apply Hrest.
  - by rewrite lookup_insert_ne.
Qed.

Lemma materialize_inversion (self : Container) e m m' :
  materialize self e m = Done tt m' →
  ∃ D R, collections m !! m_container self = Some D
         ∧ collections m' = <[m_container self := R]> (collections m)
         ∧ length R = length D
         ∧ ∀ i, i < length D →
             ∃ x, R !! i = Some x ∧ element_of e i m = Done x (log (reads e i) m).
Proof.
  unfold materialize, for_each_index. intros (n & m0 & Hn & H)%bind_inv.
  unfold size in Hn.
  destruct (collections m !! m_container self) as [D|] eqn:Hd; [|done].
  injection Hn as <- <-. exists D.
  eapply (for_range_inversion _ _ _ D
            (λ i x, element_of e i m = Done x (log (reads e i) m))) in H; [|done|].
  - destruct H as (R & HR & Hlen & _ & Hval). by exists R.
  - clear H. intros i m1 m2 L1 Hm1 Hlen Hrest H.
    apply bind_inv in H as (x & m3 & Hx & H).
    apply element_of_Done in Hx as [-> Hx].
    apply bind_inv in H as (r & m4 & (-> & -> & l & Hl & Hi)%collection_subscript_inv & H).
    apply modify_inv in H as (l' & old & new & Hl' & _ & [= <-] & ->).
    simpl in Hl, Hl'. rewrite Hm1, lookup_insert_eq in Hl, Hl'.
    injection Hl as <-. injection Hl' as <-. exists x. split; [lia|]. split.
    + simpl. by rewrite Hm1, insert_insert_eq.
    + apply Hx. by eapply peek_insert_agree.
Qed.

Lemma compound_assign_inversion o (self : Container) e m m' :
  Container_compound_assign o self e m = Done tt m' →
  ∃ D R, collections m !! m_container self = Some D
         ∧ collections m' = <[m_container self := R]> (collections m)
         ∧ length R = length D
         ∧ ∀ i, i < length D →
             ∃ x old v, R !! i = Some x ∧ D !! i = Some old
                        ∧ element_of e i m = Done v (log (reads e i) m)
                        ∧ compound o old v = Some x.
Proof.
  unfold Container_compound_assign, for_each_index.
  destruct (is_binary_expression e); [|done].
  intros (n & m0 & Hn & H)%bind_inv. unfold size in Hn.
  destruct (collections m !! m_container self) as [D|] eqn:Hd; [|done].
  injection Hn as <- <-. exists D.
  eapply (for_range_inversion _ _ _ D
            (λ i x, ∃ old v, D !! i = Some old
                             ∧ element_of e i m = Done v (log (reads e i) m)
                             ∧ compound o old v = Some x)) in H; [|done|].
  - destruct H as (R & HR & Hlen & _ & Hval). exists R.
    split; [done|]. split; [done|]. split; [done|].
    intros i Hi. destruct (Hval i Hi) as (x & Hx & old & v & ? & ? & ?).
    by exists x, old, v.
  - clear H. intros i m1 m2 L1 Hm1 Hlen Hrest H.
    apply bind_inv in H as (v & m3 & Hv & H).
    apply element_of_Done in Hv as [-> Hv].
    apply bind_inv in H as (r & m4 & (-> & -> & l & Hl & Hi)%collection_subscript_inv & H).
    apply modify_inv in H as (l' & old & new & Hl' & Hold & Hnew & ->).
    simpl in Hl, Hl'. rewrite Hm1, lookup_insert_eq in Hl, Hl'.
    injection Hl as <-. injection Hl' as <-. exists new. split; [lia|]. split.
    + simpl. by rewrite Hm1, insert_insert_eq.
    + exists old, v. split; [by rewrite <- Hrest|]. split; [|done].
      apply Hv. by eapply peek_insert_agree.
Qed.

(** Indexing an expression that ends has found an element at the index
    in every leaf. *)
Lemma subscript_leaves_in_range e i m r m' :
  subscript e i m = Done r m' → ∀ c, c ∈ leaves e → is_Some (peek m c i).
Proof.
  revert m r m'. induction e as [is_const w|c0|l IHl op r0 IHr]; intros m r m' H c Hc.
  - simpl in H, Hc. apply wrapped_operand_inv in H as (x & Hx & _).
    apply list_elem_of_singleton in Hc as ->. eauto.
  - simpl in H, Hc. apply collection_operand_inv in H as (x & Hx & _).
    apply list_elem_of_singleton in Hc as ->. eauto.
  - simpl in H, Hc. apply bind_inv in H as (a & m1 & Ha & H).
    apply bind_inv in H as (b & m2 & Hb & _).
    apply elem_of_app in Hc as [Hc|Hc]; [by eapply IHl|].
    apply subscript_Done in Ha as [-> _].
    change (is_Some (peek (log (reads l i) m) c i)). by eapply IHr.
Qed.

End Inversion.

(** X3. An assignment from an expression that ends has changed the
    destination only, kept its size, and put at every index the value the
    tree has at that index in the store before the statement; the
    operands are as they were unless the destination is one of them. *)
Theorem assignment_changes_destination_only (E : Element) (self : Container)
    (e : Expr) (m m' : machine (E:=E)) :
  Container_assign self e m = Done tt m' →
  ∃ D R, collections m !! m_container self = Some D
         ∧ collections m' = <[m_container self := R]> (collections m)
         ∧ length R = length D
         ∧ ∀ i, i < length D →
             ∃ x, R !! i = Some x ∧ element_of e i m = Done x (log (reads e i) m).
Proof.
  unfold Container_assign. destruct (is_binary_expression e); [|done].
  apply materialize_inversion.
Qed.

Lemma assignment_changes_destination_only_witness :
  let m := initial Int32.int [[1; 2]; [10; 20]]%Z in
  let e := BinaryExpression (Wrapped true {| m_container := 0 |}) (numeric SUB)
             (Collection 1) in
  let m' := match Container_assign {| m_container := 0 |} e m with
            | Done _ m' => m'
            | Failed _ => m
            end in
  ∃ D R : list Int32.int,
    collections m !! 0 = Some D
    ∧ collections m' = <[0 := R]> (collections m)
    ∧ length R = length D
    ∧ ∀ i, i < length D →
        ∃ x, R !! i = Some x ∧ element_of e i m = Done x (log (reads e i) m).
Proof.
  apply (assignment_changes_destination_only Int32.int {| m_container := 0 |}
           (BinaryExpression (Wrapped true {| m_container := 0 |}) (numeric SUB)
              (Collection 1))
           (initial Int32.int [[1; 2]; [10; 20]]%Z)).
  reflexivity.
Defined.

(** X4. A compound assignment from an expression that ends has changed
    the destination only, kept its size, and left at every index [i] the
    result of [D[i] op= v], for [D[i]] and the value [v] of the tree at
    [i] in the store before the statement. *)
Theorem compound_assignment_changes_destination_only (E : Element) (o : Numeric)
    (self : Container) (e : Expr) (m m' : machine (E:=E)) :
  Container_compound_assign o self e m = Done tt m' →
  ∃ D R, collections m !! m_container self = Some D
         ∧ collections m' = <[m_container self := R]> (collections m)
         ∧ length R = length D
         ∧ ∀ i, i < length D →
             ∃ x old v, R !! i = Some x ∧ D !! i = Some old
                        ∧ element_of e i m = Done v (log (reads e i) m)
                        ∧ compound o old v = Some x.
Proof. apply compound_assign_inversion. Qed.

Lemma compound_assignment_changes_destination_only_witness :
  let m := initial Int32.int [[1; 2]; [10; 20]]%Z in
  let e := BinaryExpression (Wrapped true {| m_container := 0 |}) (numeric MUL)
             (Wrapped false {| m_container := 1 |}) in
  let m' := match Container_compound_assign SUB {| m_container := 0 |} e m with
            | Done _ m' => m'
            | Failed _ => m
            end in
  ∃ D R : list Int32.int,
    collections m !! 0 = Some D
    ∧ collections m' = <[0 := R]> (collections m)
    ∧ length R = length D
    ∧ ∀ i, i < length D →
        ∃ x old v, R !! i = Some x ∧ D !! i = Some old
                   ∧ element_of e i m = Done v (log (reads e i) m)
                   ∧ compound (E:=Int32.int) SUB old v = Some x.
Proof.
  apply (compound_assignment_changes_destination_only Int32.int SUB
           {| m_container := 0 |}
           (BinaryExpression (Wrapped true {| m_container := 0 |}) (numeric MUL)
              (Wrapped false {| m_container := 1 |}))
           (initial Int32.int [[1; 2]; [10; 20]]%Z)).
  reflexivity.
Defined.

(** X5. Sizes are not checked: when some leaf of the tree has no element
    at an index [i] of the destination, because its collection is shorter
    than the destination or is gone, neither the assignment nor a
    compound assignment has a result. *)
Theorem operand_out_of_range (E : Element) (o : Numeric) (self : Container)
    (e : Expr) (m : machine (E:=E)) (c : loc) (i : nat) (D : list E) :
  c ∈ leaves e →
  collections m !! m_container self = Some D →
  i < length D →
  peek m c i = None →
  (∃ f, Container_assign self e m = Failed f)
  ∧ (∃ f, Container_compound_assign o self e m = Failed f).
Proof.
  intros Hc Hd Hi Hnone.
  assert (∀ v m1, element_of e i m = Done v m1 → False) as Hno.
  { intros v m1 (r & m2 & Hr & _)%bind_inv.
    destruct (subscript_leaves_in_range _ _ _ _ _ Hr c Hc) as [x Hx]. congruence. }
  split.
  - destruct (Container_assign self e m) as [[] m'|f] eqn:H; [|by exists f].
    unfold Container_assign in H. destruct (is_binary_expression e); [|done].
    apply materialize_inversion in H as (D' & R & HD' & _ & _ & Hval).
    rewrite Hd in HD'. injection HD' as <-.
    destruct (Hval i Hi) as (x & _ & Hx). by apply Hno in Hx.
  - destruct (Container_compound_assign o self e m) as [[] m'|f] eqn:H; [|by exists f].
    apply compound_assign_inversion in H as (D' & R & HD' & _ & _ & Hval).
    rewrite Hd in HD'. injection HD' as <-.
    destruct (Hval i Hi) as (x & old & v & _ & _ & Hv & _). by apply Hno in Hv.
Qed.

Lemma operand_out_of_range_witness :
  let m := initial Int32.int [[1; 2]; [10]; [0; 0]]%Z in
  let e := BinaryExpression (Wrapped true {| m_container := 0 |}) (numeric ADD)
             (Wrapped false {| m_container := 1 |}) in
  (∃ f, Container_assign {| m_container := 2 |} e m = Failed f)
  ∧ (∃ f, Container_compound_assign ADD {| m_container := 2 |} e m = Failed f).
Proof.
  apply (operand_out_of_range Int32.int ADD {| m_container := 2 |}
           (BinaryExpression (Wrapped true {| m_container := 0 |}) (numeric ADD)
              (Wrapped false {| m_container := 1 |}))
           (initial Int32.int [[1; 2]; [10]; [0; 0]]%Z) 1 1 [0; 0]%Z).
  - apply list_elem_of_further, list_elem_of_here.
  - reflexivity.
  - simpl. lia.
  - reflexivity.
Defined.

(** ** Compound assignment from a value *)




(** ** Chains of operators *)




(** ** Values of nodes over leaves *)

Section Leaves.

Context {E : Element}.
Implicit Types (m : machine (E:=E)) (e : Expr) (c d : loc) (i : nat).

Lemma leaf_subscript_Done r c i m x :
  leaf_at r c → peek m c i = Some x →
  subscript r i m
  = Done (if is_binary_expression r then prvalue
          else match r with Collection _ => lvalue | _ => prvalue end, elem x)
      (log [ElemRead c i] m).
Proof.
  destruct r as [k w|c'|]; simpl; [intros <-|intros ->|done]; intros Hx.
  - by apply wrapped_operand_Done.
  - by apply collection_operand_Done.
Qed.

Lemma apply_Done op (ca : category) (a : E) (cb : category) (b : E)
    (m : machine (E:=E)) :
  apply op (ca, elem a) (cb, elem b) m
  = match op with
    | numeric o =>
        match apply_numeric o ca cb a b with
        | Some x => Done (elem (returned x)) m
        | None => Failed undefined_operation
        end
    | relational o =>
        match apply_relational o ca cb a b with
        | Some x => Done (boolean (returned x)) m
        | None => Failed undefined_operation
        end
    end.
Proof.
  unfold apply; simpl. unfold mbind at 1, M_bind at 1; simpl.
  unfold mbind at 1, M_bind at 1; simpl. destruct op.
  - unfold mbind, M_bind. by destruct (apply_numeric _ _ _ _ _).
  - unfold mbind, M_bind. by destruct (apply_relational _ _ _ _ _).
Qed.

(** A node over two leaves. *)
Lemma node_of_leaves l r a b i m x y op :
  leaf_at l a → leaf_at r b → peek m a i = Some x → peek m b i = Some y →
  subscript (BinaryExpression l op r) i m
  = match apply op (match l with Collection _ => lvalue | _ => prvalue end, elem x)
            (match r with Collection _ => lvalue | _ => prvalue end, elem y)
            (log [ElemRead a i; ElemRead b i] m) with
    | Done v m' => Done (prvalue, v) m'
    | Failed f => Failed f
    end.
Proof.
  intros Hl Hr Hx Hy. cbn [subscript].
  erewrite bind_Done; [|by eapply leaf_subscript_Done].
  erewrite bind_Done; [|by eapply leaf_subscript_Done; [|rewrite peek_log]].
  rewrite log_log. simpl app.
  destruct l as [kl wl|cl|]; [| |done]; destruct r as [kr wr|cr|]; try done; simpl;
    unfold mbind at 1, M_bind at 1; by destruct (apply _ _ _ _).
Qed.

End Leaves.

(** X8. The value of a node over two leaves, with [x] the element of the
    left leaf and [y] the element of the right leaf at the index.  A
    wrapper hands out a copy and a collection a reference, which selects
    the [apply] overload: with a numeric tag the node yields
    [x op= y] when the left leaf is a wrapper, [x op y] when both leaves
    are collections, and [y op= x], operands swapped, when the left leaf is
    a collection and the right one a wrapper.  With a relational tag it
    yields the [bool] [x op y] whatever the leaves are.  Each leaf is read
    once and nothing is written. *)
Theorem node_of_leaves_value (E : Element) (o : Numeric) (q : Relational)
    (kl kr : bool) (a b : loc) (l r : Expr) (i : nat) (m : machine (E:=E)) (x y : E) :
  peek m a i = Some x → peek m b i = Some y →
  leaf_at l a → leaf_at r b →
  let wa := {| m_container := a |} in
  let wb := {| m_container := b |} in
  let m' := log [ElemRead a i; ElemRead b i] m in
  subscript (BinaryExpression (Wrapped kl wa) (numeric o) (Wrapped kr wb)) i m
  = evaluated (elem <$> compound o x y) m'
  ∧ subscript (BinaryExpression (Wrapped kl wa) (numeric o) (Collection b)) i m
    = evaluated (elem <$> compound o x y) m'
  ∧ subscript (BinaryExpression (Collection a) (numeric o) (Collection b)) i m
    = evaluated (elem <$> binary o x y) m'
  ∧ subscript (BinaryExpression (Collection a) (numeric o) (Wrapped kr wb)) i m
    = evaluated (elem <$> compound o y x) m'
  ∧ subscript (BinaryExpression l (relational q) r) i m
    = evaluated (boolean <$> relation q x y) m'.
Proof.
  intros Hx Hy Hl Hr wa wb m'. repeat split.
  - rewrite (node_of_leaves _ _ a b i m x y) by done.
    rewrite (apply_Done (numeric o) prvalue x prvalue y). simpl.
    by destruct (compound o x y).
  - rewrite (node_of_leaves _ _ a b i m x y) by done.
    rewrite (apply_Done (numeric o) prvalue x lvalue y). simpl.
    by destruct (compound o x y).
  - rewrite (node_of_leaves _ _ a b i m x y) by done.
    rewrite (apply_Done (numeric o) lvalue x lvalue y). simpl.
    by destruct (binary o x y).
  - rewrite (node_of_leaves _ _ a b i m x y) by done.
    rewrite (apply_Done (numeric o) lvalue x prvalue y). simpl.
    by destruct (compound o y x).
  - rewrite (node_of_leaves l r a b i m x y) by done.
    set (cl := match l with Collection _ => lvalue | _ => prvalue end).
    set (cr := match r with Collection _ => lvalue | _ => prvalue end).
    rewrite (apply_Done (relational q) cl x cr y). simpl.
    by destruct cl, cr; simpl; destruct (relation q x y).
Qed.

Lemma node_of_leaves_value_witness :
  let m := initial Int32.int [[7]; [2]]%Z in
  let wa := {| m_container := 0 |} in
  let wb := {| m_container := 1 |} in
  let m' := log [ElemRead 0 0; ElemRead 1 0] m in
  subscript (BinaryExpression (Wrapped true wa) (numeric SUB) (Wrapped false wb)) 0 m
  = evaluated (elem <$> compound (E:=Int32.int) SUB 7%Z 2%Z) m'
  ∧ subscript (BinaryExpression (Wrapped true wa) (numeric SUB) (Collection 1)) 0 m
    = evaluated (elem <$> compound (E:=Int32.int) SUB 7%Z 2%Z) m'
  ∧ subscript (BinaryExpression (Collection 0) (numeric SUB) (Collection 1)) 0 m
    = evaluated (elem <$> binary (E:=Int32.int) SUB 7%Z 2%Z) m'
  ∧ subscript (BinaryExpression (Collection 0) (numeric SUB) (Wrapped false wb)) 0 m
    = evaluated (elem <$> compound (E:=Int32.int) SUB 2%Z 7%Z) m'
  ∧ subscript (BinaryExpression (Wrapped false wa) (relational LT) (Collection 1)) 0 m
    = evaluated (boolean <$> relation (E:=Int32.int) LT 7%Z 2%Z) m'.
Proof.
  apply (node_of_leaves_value Int32.int SUB LT true false 0 1
           (Wrapped false {| m_container := 0 |}) (Collection 1) 0
           (initial Int32.int [[7]; [2]]%Z) 7%Z 2%Z); reflexivity.
Defined.

(** ** The value of a chain *)

Section ChainValue.

Context {E : Element}.
Implicit Types (m : machine (E:=E)) (e : Expr) (c d : loc) (i : nat).



End ChainValue.



(** ** The operators of a wrapper, one by one *)

Section WrapperOperators.

Context {E : Element}.
Implicit Types (m : machine (E:=E)) (e : Expr) (c d : loc) (i : nat).

Lemma Container_operator_Done xi_operator tag (self : Container) rhs m :
  candidates xi_operator = [tag] →
  Container_operator xi_operator self rhs m
  = Done (BinaryExpression (Wrapped true self) tag rhs) m.
Proof. intros Htag. unfold Container_operator, resolve. by rewrite Htag. Qed.

Lemma wrapper_operator_numeric xi_operator o (a b : Container) k i m x y :
  candidates xi_operator = [numeric o] →
  peek m (m_container a) i = Some x → peek m (m_container b) i = Some y →
  (e ← Container_operator xi_operator a (Wrapped k b); subscript e i) m
  = evaluated (elem <$> compound o x y)
      (log [ElemRead (m_container a) i; ElemRead (m_container b) i] m).
Proof.
  intros Htag Hx Hy. erewrite bind_Done; [|by apply Container_operator_Done].
  rewrite (node_of_leaves _ _ (m_container a) (m_container b) i m x y) by done.
  rewrite (apply_Done (numeric o) prvalue x prvalue y). simpl.
  by destruct (compound o x y).
Qed.

Lemma wrapper_operator_relational xi_operator q (a b : Container) k i m x y :
  candidates xi_operator = [relational q] →
  peek m (m_container a) i = Some x → peek m (m_container b) i = Some y →
  (e ← Container_operator xi_operator a (Wrapped k b); subscript e i) m
  = evaluated (boolean <$> relation q x y)
      (log [ElemRead (m_container a) i; ElemRead (m_container b) i] m).
Proof.
  intros Htag Hx Hy. erewrite bind_Done; [|by apply Container_operator_Done].
  rewrite (node_of_leaves _ _ (m_container a) (m_container b) i m x y) by done.
  rewrite (apply_Done (relational q) prvalue x prvalue y). simpl.
  by destruct (relation q x y).
Qed.

(** Indexing an expression that ends depends on the store only through
    the elements of its leaves at the index. *)
Lemma subscript_local e i m r m' :
  subscript e i m = Done r m' →
  ∀ m2, (∀ c, c ∈ leaves e → peek m2 c i = peek m c i) →
        subscript e i m2 = Done r (log (reads e i) m2).
Proof.
  revert m r m'. induction e as [is_const w|c|l IHl op r0 IHr]; intros m res m' H m2 Hm2.
  - simpl in H. apply wrapped_operand_inv in H as (x & Hx & -> & ->).
    apply wrapped_operand_Done. rewrite Hm2; [done|]. apply list_elem_of_here.
  - simpl in H. apply collection_operand_inv in H as (x & Hx & -> & ->).
    apply collection_operand_Done. rewrite Hm2; [done|]. apply list_elem_of_here.
  - simpl in H. apply bind_inv in H as (a & m1 & Ha & H).
    apply bind_inv in H as (b & m3 & Hb & H).
    apply bind_inv in H as (v & m4 & Hv & H). injection H as <- <-.
    pose proof (subscript_Done _ _ _ _ _ Ha) as [-> _].
    apply apply_pure in Hv as [_ Hv].
    cbn [subscript].
    erewrite bind_Done;
      [|eapply IHl; [exact Ha | intros c Hc; apply Hm2, elem_of_app; by left]].
    erewrite bind_Done;
      [|eapply IHr; [exact Hb | intros c Hc; rewrite !peek_log;
                                apply Hm2, elem_of_app; by right]].
    erewrite bind_Done; [|by apply Hv].
    unfold reads; simpl. by rewrite fmap_app, log_log.
Qed.

End WrapperOperators.

(** X10. What each operator of a wrapper computes.  For two wrappers with
    the elements [x] and [y] at the index, [a op b] evaluates to the
    value of [x op= y] for [+], [-], [*], [/], [^], [<<], [>>], each
    with its own compound assignment, and to the [bool] [x op y] for
    [==], [!=], [<], [<=], [>], [>=], each with its own comparison.  The
    tokens [&], [|], [&&], [||] and the nine compound assignments build
    no node from a wrapper. *)
Theorem wrapper_operators_value (E : Element) (a b : Container) (k : bool)
    (i : nat) (m : machine (E:=E)) (x y : E) :
  peek m (m_container a) i = Some x → peek m (m_container b) i = Some y →
  let m' := log [ElemRead (m_container a) i; ElemRead (m_container b) i] m in
  Forall (λ p, (e ← Container_operator p.1 a (Wrapped k b); subscript e i) m
               = evaluated (elem <$> compound p.2 x y) m')
    [(tok_plus, ADD); (tok_minus, SUB); (tok_star, MUL); (tok_slash, DIV);
     (tok_caret, LXOR); (tok_shl, SHL); (tok_shr, SHR)]
  ∧ Forall (λ p, (e ← Container_operator p.1 a (Wrapped k b); subscript e i) m
                 = evaluated (boolean <$> relation p.2 x y) m')
      [(tok_eq_eq, EQ); (tok_not_eq, NEQ); (tok_less, LT); (tok_less_eq, LE);
       (tok_greater, GT); (tok_greater_eq, GE)]
  ∧ Forall (λ tok, ∃ f, Container_operator tok a (Wrapped k b) m = Failed f)
      [tok_amp; tok_pipe; tok_amp_amp; tok_pipe_pipe;
       tok_plus_eq; tok_minus_eq; tok_star_eq; tok_slash_eq; tok_pipe_eq;
       tok_amp_eq; tok_caret_eq; tok_shl_eq; tok_shr_eq].
Proof.
  intros Hx Hy m'. split; [|split].
  - repeat apply Forall_cons_2; try apply Forall_nil_2;
      by apply wrapper_operator_numeric.
  - repeat apply Forall_cons_2; try apply Forall_nil_2;
      by apply wrapper_operator_relational.
  - repeat apply Forall_cons_2; try apply Forall_nil_2; by eexists.
Qed.

Lemma wrapper_operators_value_witness :
  let m := initial Int32.int [[12]; [2]]%Z in
  let a := {| m_container := 0 |} in
  let b := {| m_container := 1 |} in
  let m' := log [ElemRead 0 0; ElemRead 1 0] m in
  Forall (λ p, (e ← Container_operator p.1 a (Wrapped false b); subscript e 0) m
               = evaluated (elem <$> compound (E:=Int32.int) p.2 12%Z 2%Z) m')
    [(tok_plus, ADD); (tok_minus, SUB); (tok_star, MUL); (tok_slash, DIV);
     (tok_caret, LXOR); (tok_shl, SHL); (tok_shr, SHR)]
  ∧ Forall (λ p, (e ← Container_operator p.1 a (Wrapped false b); subscript e 0) m
                 = evaluated (boolean <$> relation (E:=Int32.int) p.2 12%Z 2%Z) m')
      [(tok_eq_eq, EQ); (tok_not_eq, NEQ); (tok_less, LT); (tok_less_eq, LE);
       (tok_greater, GT); (tok_greater_eq, GE)]
  ∧ Forall (λ tok, ∃ f, Container_operator tok a (Wrapped false b) m = Failed f)
      [tok_amp; tok_pipe; tok_amp_amp; tok_pipe_pipe;
       tok_plus_eq; tok_minus_eq; tok_star_eq; tok_slash_eq; tok_pipe_eq;
       tok_amp_eq; tok_caret_eq; tok_shl_eq; tok_shr_eq].
Proof.
  apply (wrapper_operators_value Int32.int {| m_container := 0 |}
           {| m_container := 1 |} false 0 (initial Int32.int [[12]; [2]]%Z)
           12%Z 2%Z); reflexivity.
Defined.

(** X11. Indexing an expression tree never allocates or writes, and looks
    at nothing but the elements of its leaves at the index asked for: if
    it ends, the store is as before, and in any store with the same
    elements at that index of the leaves it ends with the same value,
    whatever the other elements and the other collections are. *)
Theorem indexing_is_local (E : Element) (e : Expr) (i : nat)
    (m m' m2 : machine (E:=E)) (r : category * value) :
  subscript e i m = Done r m' →
  (∀ c, c ∈ leaves e → peek m2 c i = peek m c i) →
  collections m' = collections m
  ∧ subscript e i m2 = Done r (log (reads e i) m2).
Proof.
  intros H Hagree. split.
  - by apply subscript_Done in H as [-> _].
  - by eapply subscript_local.
Qed.

Lemma indexing_is_local_witness :
  let m := initial Int32.int [[1; 2]; [10; 20]]%Z in
  let m2 := initial Int32.int [[5; 2; 7]; [6; 20]; [8]]%Z in
  let e := BinaryExpression (Wrapped true {| m_container := 0 |}) (numeric ADD)
             (Wrapped false {| m_container := 1 |}) in
  collections (log (reads e 1) m) = collections m
  ∧ subscript e 1 m2 = Done (prvalue, elem (E:=Int32.int) 22%Z) (log (reads e 1) m2).
Proof.
  apply (indexing_is_local Int32.int
           (BinaryExpression (Wrapped true {| m_container := 0 |}) (numeric ADD)
              (Wrapped false {| m_container := 1 |}))
           1 (initial Int32.int [[1; 2]; [10; 20]]%Z)).
  - reflexivity.
  - intros c [->|[->|[]%elem_of_nil]%elem_of_cons]%elem_of_cons; reflexivity.
Defined.
